(** * project_consumer_montoya: a file-tailing consumer counting messages per author

    Shallow embedding of [consumers/project_consumer_montoya.py].

    The script keeps two module-level variables, [author_counts] (a
    [defaultdict(int)]) and [total_messages]; [process_message] decodes one
    line with [json.loads] and folds it into them, [update_chart] redraws a
    bar chart, and [main] tails the data file with [readline] in a
    [while True] loop.

    Modelling choices, all visible in the definitions below:
    - a Python [str] is a list of code points ([N]);
    - Python [int] is [Z]; a Python [float] is a [spec_float];
    - exceptions are a result constructor, threaded by a small monad over
      the module globals and a trace of the effects the script performs
      (log records, chart calls, sleeps);
    - [json.loads] and the plotting backend are library code: they are
      Section variables, so every theorem holds for any behaviour of theirs;
    - the data file is its decoded text and a read cursor; what the producer
      appends, and whether a read fails, comes from a list of events, one per
      loop iteration.  When the events are used up the loop is still polling:
      the run is [Blocked], it has not returned. *)

From Stdlib Require Import ZArith NArith List Bool Lia String Ascii Permutation.
From Stdlib Require Import Floats.SpecFloat.
Import ListNotations.

Local Open Scope Z_scope.
Set Warnings "-register-all".

(* ================================================================== *)
(** ** Text *)

Module Text.

(** A Python [str]: a sequence of Unicode code points. *)
Definition str := list N.

Definition py (s : string) : str :=
  List.map N_of_ascii (list_ascii_of_string s).

(** JSON text is full of double quotes; [jq] writes them as apostrophes,
    so [jq "{'author': 'alice'}"] is the line [{"author": "alice"}]. *)
Definition jq (s : string) : str :=
  List.map (fun c => if N.eqb c 39 then 34%N else c) (py s).

Fixpoint str_eqb (a b : str) : bool :=
  match a, b with
  | [], [] => true
  | x :: a', y :: b' => N.eqb x y && str_eqb a' b'
  | _, _ => false
  end.

Definition NL : N := 10%N.

(** [str.isspace] on one code point: the characters [str.strip()] removes. *)
Definition is_space (c : N) : bool :=
  ((9 <=? c) && (c <=? 13) || (28 <=? c) && (c <=? 32)
   || (c =? 133) || (c =? 160) || (c =? 5760)
   || (8192 <=? c) && (c <=? 8202)
   || (c =? 8232) || (c =? 8233) || (c =? 8239) || (c =? 8287)
   || (c =? 12288))%N.

Fixpoint lstrip (s : str) : str :=
  match s with
  | c :: r => if is_space c then lstrip r else s
  | [] => []
  end.

Definition rstrip (s : str) : str := rev (lstrip (rev s)).

(** [s.strip()] *)
Definition strip (s : str) : str := rstrip (lstrip s).

(** Truth value of a [str] in a condition: non-empty. *)
Definition truthy (s : str) : bool :=
  match s with [] => false | _ :: _ => true end.

End Text.
Import Text.

(* ================================================================== *)
(** ** Python values and dictionary keys *)

(** What [json.loads] can return. A [dict] keeps its items in insertion
    order, with distinct keys. *)
Inductive pyval :=
| PNone
| PBool (b : bool)
| PInt (z : Z)
| PFloat (f : spec_float)
| PStr (s : str)
| PList (l : list pyval)
| PDict (d : list (str * pyval)).

(** [isinstance(v, dict)] *)
Definition isinstance_dict (v : pyval) : bool :=
  match v with PDict _ => true | _ => false end.

(** [d.get(key, default)] on a decoded object. *)
Fixpoint items_get (d : list (str * pyval)) (key : str) : option pyval :=
  match d with
  | [] => None
  | (k, v) :: r => if str_eqb k key then Some v else items_get r key
  end.

Definition dict_get (d : list (str * pyval)) (key : str) (default : pyval) : pyval :=
  match items_get d key with Some v => v | None => default end.

(** Two keys address the same [dict] entry when they are equal by [==] (and
    hash alike). Among decoded JSON values that is: [None] with [None], a
    string with the same string, and numbers by value across [bool], [int]
    and [float] ([True == 1 == 1.0]). [hkey] is the normal form of a hashable
    value under that equality; a finite number is [m * 2^e] with [m] odd, or
    [0 * 2^0]. The one [nan] object of the [json] module is found by
    identity. *)
Inductive hkey :=
| HNone
| HStr (s : str)
| HNum (m e : Z)
| HInf (negative : bool)
| HNan.

Fixpoint strip_twos (p : positive) (e : Z) : positive * Z :=
  match p with
  | xO p' => strip_twos p' (e + 1)
  | _ => (p, e)
  end.

Definition dyadic (m e : Z) : hkey :=
  match m with
  | Z0 => HNum 0 0
  | Zpos p => let (q, e') := strip_twos p e in HNum (Zpos q) e'
  | Zneg p => let (q, e') := strip_twos p e in HNum (Zneg q) e'
  end.

(** [None] for the unhashable values: [hash(v)] raises [TypeError]. *)
Definition key_of (v : pyval) : option hkey :=
  match v with
  | PNone => Some HNone
  | PBool b => Some (dyadic (if b then 1 else 0) 0)
  | PInt z => Some (dyadic z 0)
  | PFloat (S754_zero _) => Some (dyadic 0 0)
  | PFloat (S754_infinity s) => Some (HInf s)
  | PFloat S754_nan => Some HNan
  | PFloat (S754_finite s m e) => Some (dyadic (if s then Zneg m else Zpos m) e)
  | PStr s => Some (HStr s)
  | PList _ => None
  | PDict _ => None
  end.

Definition hkey_eqb (a b : hkey) : bool :=
  match a, b with
  | HNone, HNone => true
  | HStr s, HStr t => str_eqb s t
  | HNum m e, HNum m' e' => (m =? m') && (e =? e')
  | HInf s, HInf s' => Bool.eqb s s'
  | HNan, HNan => true
  | _, _ => false
  end.

(** Does the stored key [k] answer a lookup for [h]? *)
Definition same_key (h : hkey) (k : pyval) : bool :=
  match key_of k with
  | Some h' => hkey_eqb h h'
  | None => false
  end.

(* ================================================================== *)
(** ** Exceptions *)

Inductive exn :=
| JSONDecodeError
| TypeError
| ValueError
| RecursionError
| MemoryError
| OSError
| UnicodeDecodeError
| KeyboardInterrupt
| SystemExit (code : Z).

(** [isinstance(e, Exception)]: everything but the two that derive from
    [BaseException] only. *)
Definition is_Exception (e : exn) : bool :=
  match e with
  | KeyboardInterrupt | SystemExit _ => false
  | _ => true
  end.

Definition is_JSONDecodeError (e : exn) : bool :=
  match e with JSONDecodeError => true | _ => false end.

Definition is_KeyboardInterrupt (e : exn) : bool :=
  match e with KeyboardInterrupt => true | _ => false end.

(** How a library call ends. *)
Inductive outcome (A : Type) :=
| Returned (a : A)
| Raised (e : exn).
Arguments Returned {A} a.
Arguments Raised {A} e.

(** How a call into the script ends: it returns, it raises, or the
    environment's events are used up while it is still running. *)
Inductive result (A : Type) :=
| Normal (a : A)
| Raise (e : exn)
| Blocked.
Arguments Normal {A} a.
Arguments Raise {A} e.
Arguments Blocked {A}.

(* ================================================================== *)
(** ** A reference decoder for [json.loads]

    The consumer below is parametric in [json.loads]. This decoder follows
    the standard [json] module's scanner (strict mode, default hooks) and is
    what the concrete runs use. It does not model the interpreter's
    recursion limit: on a text nested too deeply for it, the real decoder
    raises [RecursionError]. *)

Module Json.

Local Open Scope N_scope.

(** Why the decoder gives up, and the exception [json.loads] raises then. *)
Inductive failure :=
| Invalid        (* JSONDecodeError: the text is not JSON *)
| Int_too_long   (* ValueError: an integer beyond the digit limit *)
| Too_deep.      (* RecursionError *)

Definition exn_of_failure (f : failure) : exn :=
  match f with
  | Invalid => JSONDecodeError
  | Int_too_long => ValueError
  | Too_deep => RecursionError
  end.

Inductive scan (A : Type) :=
| Scanned (a : A)
| Failed (f : failure).
Arguments Scanned {A} a.
Arguments Failed {A} f.

Definition is_ws (c : N) : bool :=
  (c =? 32) || (c =? 9) || (c =? 10) || (c =? 13).

Fixpoint skip_ws (s : str) : str :=
  match s with
  | c :: r => if is_ws c then skip_ws r else s
  | [] => []
  end.

Definition is_digit (c : N) : bool := (48 <=? c) && (c <=? 57).

Definition hex_val (c : N) : option N :=
  if is_digit c then Some (c - 48)
  else if (97 <=? c) && (c <=? 102) then Some (c - 87)
  else if (65 <=? c) && (c <=? 70) then Some (c - 55)
  else None.

Definition hex4 (a b c d : N) : option N :=
  match hex_val a, hex_val b, hex_val c, hex_val d with
  | Some x, Some y, Some z, Some t => Some (((x * 16 + y) * 16 + z) * 16 + t)
  | _, _, _, _ => None
  end.

(** The one-character escapes after a backslash. *)
Definition backslash (c : N) : option N :=
  if c =? 34 then Some 34        (* quote *)
  else if c =? 92 then Some 92   (* backslash *)
  else if c =? 47 then Some 47   (* slash *)
  else if c =? 98 then Some 8    (* b *)
  else if c =? 102 then Some 12  (* f *)
  else if c =? 110 then Some 10  (* n *)
  else if c =? 114 then Some 13  (* r *)
  else if c =? 116 then Some 9   (* t *)
  else None.

(** [scanstring], entered after the opening quote; [acc] holds the decoded
    characters, last first. *)
Fixpoint scanstring (s : str) (acc : str) : scan (str * str) :=
  match s with
  | [] => Failed Invalid
  | c :: r =>
      if c =? 34 then Scanned (rev acc, r)
      else if c =? 92 then
        match r with
        | [] => Failed Invalid
        | esc :: r1 =>
            if esc =? 117 then
              match r1 with
              | a :: b :: c1 :: d :: r2 =>
                  match hex4 a b c1 d with
                  | None => Failed Invalid
                  | Some uni =>
                      match r2 with
                      | 92 :: 117 :: r3 =>
                          if (55296 <=? uni) && (uni <=? 56319) then
                            match r3 with
                            | a' :: b' :: c' :: d' :: r4 =>
                                match hex4 a' b' c' d' with
                                | None => Failed Invalid
                                | Some uni2 =>
                                    if (56320 <=? uni2) && (uni2 <=? 57343) then
                                      scanstring r4
                                        (65536 + (uni - 55296) * 1024
                                         + (uni2 - 56320) :: acc)
                                    else scanstring r2 (uni :: acc)
                                end
                            | _ => Failed Invalid
                            end
                          else scanstring r2 (uni :: acc)
                      | _ => scanstring r2 (uni :: acc)
                      end
                  end
              | _ => Failed Invalid
              end
            else
              match backslash esc with
              | Some ch => scanstring r1 (ch :: acc)
              | None => Failed Invalid
              end
        end
      else if c <? 32 then Failed Invalid
      else scanstring r (c :: acc)
  end.

Fixpoint take_digits (s : str) : str * str :=
  match s with
  | c :: r =>
      if is_digit c then let (ds, rest) := take_digits r in (c :: ds, rest)
      else ([], s)
  | [] => ([], [])
  end.

Definition digits_value (ds : str) : Z :=
  fold_left (fun acc c => (acc * 10 + Z.of_N (c - 48))%Z) ds 0%Z.

(** The integer part of a number: [0], or a non-zero digit and digits. *)
Definition match_integer (s : str) : option (str * str) :=
  match s with
  | c :: r =>
      if c =? 48 then Some ([c], r)
      else if is_digit c then Some (take_digits s)
      else None
  | [] => None
  end.

(** [.digits], when present. *)
Definition match_frac (s : str) : str * str :=
  match s with
  | 46 :: r =>
      match take_digits r with
      | ([], _) => ([], s)
      | (ds, rest) => (ds, rest)
      end
  | _ => ([], s)
  end.

(** [e], an optional sign and digits, when present: the exponent. *)
Definition match_exp (s : str) : option Z * str :=
  match s with
  | e :: r =>
      if (e =? 101) || (e =? 69) then
        let (neg, r') :=
          match r with
          | 45 :: r' => (true, r')
          | 43 :: r' => (false, r')
          | _ => (false, r)
          end in
        match take_digits r' with
        | ([], _) => (None, s)
        | (ds, rest) =>
            (Some (if neg then (- digits_value ds)%Z else digits_value ds), rest)
        end
      else (None, s)
  | [] => (None, s)
  end.

(** [float(text)] for the decimal [n * 10^e10]: the nearest binary64,
    rounding to even. *)
Definition float_of_decimal (neg : bool) (n : positive) (e10 : Z) : spec_float :=
  match e10 with
  | Zneg k =>
      SFdiv 53 1024 (S754_finite neg n 0)
                    (S754_finite false (10 ^ k)%positive 0)
  | _ =>
      binary_normalize 53 1024
        ((if neg then Zneg n else Zpos n) * 10 ^ e10)%Z 0%Z false
  end.

(** [sys.get_int_max_str_digits()], the default. *)
Definition int_max_str_digits : nat := 4300.

(** A number: an optional minus, the integer part, an optional fraction
    and an optional exponent. An [int] when it has neither fraction nor
    exponent, a [float] otherwise. *)
Definition match_number (s : str) : option (scan pyval * str) :=
  let (neg, s1) :=
    match s with
    | 45 :: r => (true, r)
    | _ => (false, s)
    end in
  match match_integer s1 with
  | None => None
  | Some (int_ds, s2) =>
      let (frac_ds, s3) := match_frac s2 in
      let (exp, s4) := match_exp s3 in
      match frac_ds, exp with
      | [], None =>
          if (int_max_str_digits <? List.length int_ds)%nat
          then Some (Failed Int_too_long, s4)
          else
            let z := digits_value int_ds in
            Some (Scanned (PInt (if neg then (- z)%Z else z)), s4)
      | _, _ =>
          let e10 :=
            ((match exp with Some e => e | None => 0 end)
             - Z.of_nat (List.length frac_ds))%Z in
          match digits_value (int_ds ++ frac_ds) with
          | Zpos n => Some (Scanned (PFloat (float_of_decimal neg n e10)), s4)
          | _ => Some (Scanned (PFloat (S754_zero neg)), s4)
          end
      end
  end.

(** [s[idx:idx + len(word)] == word], and the text after the word. *)
Fixpoint after_word (word s : str) : option str :=
  match word, s with
  | [], _ => Some s
  | c :: w, d :: r => if c =? d then after_word w r else None
  | _ :: _, [] => None
  end.

(** [dict(pairs)]: a key seen again keeps its place and takes the new
    value. *)
Fixpoint dict_set (k : str) (v : pyval) (d : list (str * pyval))
  : list (str * pyval) :=
  match d with
  | [] => [(k, v)]
  | (k', v') :: r =>
      if str_eqb k' k then (k', v) :: r else (k', v') :: dict_set k v r
  end.

Definition dict_of_pairs (pairs : list (str * pyval)) : list (str * pyval) :=
  fold_left (fun d kv => dict_set (fst kv) (snd kv) d) pairs [].

Definition and_then {A B} (r : scan A) (k : A -> scan B) : scan B :=
  match r with
  | Scanned a => k a
  | Failed f => Failed f
  end.

(** The scanner. Each call consumes at least one character before it
    calls again, so [fuel] above the length of the text is never used up.
    [object_items] starts after the opening quote of a key,
    [array_items] at a value. *)
Fixpoint scan_once (fuel : nat) (s : str) {struct fuel}
  : scan (pyval * str) :=
  match fuel with
  | O => Failed Too_deep
  | S fuel' =>
      match s with
      | [] => Failed Invalid
      | c :: r =>
          if c =? 34 then
            and_then (scanstring r [])
              (fun tr => Scanned (PStr (fst tr), snd tr))
          else if c =? 123 then
            match r with
            | 34 :: r' => object_items fuel' [] r'
            | _ =>
                match skip_ws r with
                | 125 :: r' => Scanned (PDict [], r')
                | 34 :: r' => object_items fuel' [] r'
                | _ => Failed Invalid
                end
            end
          else if c =? 91 then
            match skip_ws r with
            | 93 :: r' => Scanned (PList [], r')
            | r' => array_items fuel' [] r'
            end
          else
            match after_word (py "null") s, after_word (py "true") s,
                  after_word (py "false") s with
            | Some r', _, _ => Scanned (PNone, r')
            | _, Some r', _ => Scanned (PBool true, r')
            | _, _, Some r' => Scanned (PBool false, r')
            | None, None, None =>
                match match_number s with
                | Some (v, r') => and_then v (fun v => Scanned (v, r'))
                | None =>
                    match after_word (py "NaN") s,
                          after_word (py "Infinity") s,
                          after_word (py "-Infinity") s with
                    | Some r', _, _ => Scanned (PFloat S754_nan, r')
                    | _, Some r', _ =>
                        Scanned (PFloat (S754_infinity false), r')
                    | _, _, Some r' =>
                        Scanned (PFloat (S754_infinity true), r')
                    | None, None, None => Failed Invalid
                    end
                end
            end
      end
  end
with object_items (fuel : nat) (pairs : list (str * pyval)) (s : str)
  {struct fuel} : scan (pyval * str) :=
  match fuel with
  | O => Failed Too_deep
  | S fuel' =>
      and_then (scanstring s []) (fun kr =>
        match skip_ws (snd kr) with
        | 58 :: r1 =>
            and_then (scan_once fuel' (skip_ws r1)) (fun vr =>
              let pairs' := pairs ++ [(fst kr, fst vr)] in
              match skip_ws (snd vr) with
              | 125 :: r2 => Scanned (PDict (dict_of_pairs pairs'), r2)
              | 44 :: r2 =>
                  match skip_ws r2 with
                  | 34 :: r3 => object_items fuel' pairs' r3
                  | _ => Failed Invalid
                  end
              | _ => Failed Invalid
              end)
        | _ => Failed Invalid
        end)
  end
with array_items (fuel : nat) (values : list pyval) (s : str)
  {struct fuel} : scan (pyval * str) :=
  match fuel with
  | O => Failed Too_deep
  | S fuel' =>
      and_then (scan_once fuel' s) (fun vr =>
        let values' := values ++ [fst vr] in
        match skip_ws (snd vr) with
        | 93 :: r1 => Scanned (PList values', r1)
        | 44 :: r1 => array_items fuel' values' (skip_ws r1)
        | _ => Failed Invalid
        end)
  end.

(** [JSONDecoder.decode]: one value, with nothing but whitespace around
    it. *)
Definition decode (s : str) : scan pyval :=
  match s with
  | 65279 :: _ => Failed Invalid   (* a leading BOM *)
  | _ =>
      and_then (scan_once (S (List.length s)) (skip_ws s)) (fun vr =>
        match skip_ws (snd vr) with
        | [] => Scanned (fst vr)
        | _ :: _ => Failed Invalid   (* extra data *)
        end)
  end.

(** [json.loads(s)] for a [str]. *)
Definition loads (s : str) : outcome pyval :=
  match decode s with
  | Scanned v => Returned v
  | Failed f => Raised (exn_of_failure f)
  end.

End Json.

(* ================================================================== *)
(** ** The module state and the effects of the script *)

Inductive log_record :=
| INFO_start
| INFO_totals (total : Z) (counts : list (pyval * Z))
| INFO_interrupted
| INFO_closed
| ERROR_missing_file
| ERROR_not_dict (v : pyval)
| ERROR_invalid_json (message : str)
| ERROR_processing (e : exn)
| ERROR_unexpected (e : exn).

Definition is_error_record (r : log_record) : bool :=
  match r with
  | ERROR_missing_file | ERROR_not_dict _ | ERROR_invalid_json _
  | ERROR_processing _ | ERROR_unexpected _ => true
  | _ => false
  end.

Inductive effect :=
| Log (r : log_record)
| Print_ready
| Ax_clear
| Draw (authors : list pyval) (counts : list Z) (ylim : Z)
| Sleep
| Ioff_show.

(** [author_counts = defaultdict(int)], [total_messages = 0], and what the
    script has done so far (oldest effect first). *)
Record world := mkWorld {
  author_counts : list (pyval * Z);
  total_messages : Z;
  trace : list effect
}.

Definition initial_world : world :=
  {| author_counts := []; total_messages := 0; trace := [] |}.

(** [sum(author_counts.values())] *)
Definition sum_values (d : list (pyval * Z)) : Z :=
  fold_right (fun kv acc => snd kv + acc) 0 d.

(** The count stored for a key, if the key is in the dictionary. *)
Fixpoint count_of (h : hkey) (d : list (pyval * Z)) : option Z :=
  match d with
  | [] => None
  | (k, n) :: r => if same_key h k then Some n else count_of h r
  end.

(** [d[k] = n] on a hashable key: replace in place, or append. The key
    object already stored is kept. *)
Fixpoint setitem (h : hkey) (k : pyval) (n : Z) (d : list (pyval * Z))
  : list (pyval * Z) :=
  match d with
  | [] => [(k, n)]
  | (k', n') :: r =>
      if same_key h k' then (k', n) :: r else (k', n') :: setitem h k n r
  end.

(** [defaultdict(int).__getitem__]: a missing key is first stored with the
    default [int() = 0]. *)
Definition getitem_default (h : hkey) (k : pyval) (d : list (pyval * Z))
  : Z * list (pyval * Z) :=
  match count_of h d with
  | Some n => (n, d)
  | None => (0, setitem h k 0 d)
  end.

(* ================================================================== *)
(** ** A monad for the script: globals, effects and exceptions *)

Definition M (A : Type) : Type := world -> result A * world.

Definition ret {A} (a : A) : M A := fun w => (Normal a, w).

Definition bind {A B} (m : M A) (k : A -> M B) : M B :=
  fun w =>
    match m w with
    | (Normal a, w') => k a w'
    | (Raise e, w') => (Raise e, w')
    | (Blocked, w') => (Blocked, w')
    end.

Definition raise {A} (e : exn) : M A := fun w => (Raise e, w).

(** An event of the environment is missing: the program waits for it. *)
Definition blocked {A} : M A := fun w => (Blocked, w).

Definition lift {A} (r : outcome A) : M A :=
  fun w => match r with
           | Returned a => (Normal a, w)
           | Raised e => (Raise e, w)
           end.

Definition emit (x : effect) : M unit :=
  fun w => (Normal tt, {| author_counts := author_counts w;
                          total_messages := total_messages w;
                          trace := trace w ++ [x] |}).

Definition read {A} (f : world -> A) : M A := fun w => (Normal (f w), w).

Definition set_author_counts (d : list (pyval * Z)) : M unit :=
  fun w => (Normal tt, {| author_counts := d;
                          total_messages := total_messages w;
                          trace := trace w |}).

Definition set_total_messages (n : Z) : M unit :=
  fun w => (Normal tt, {| author_counts := author_counts w;
                          total_messages := n;
                          trace := trace w |}).

(** [try: body / except ...:] The handler table answers [None] for an
    exception no clause matches, which then propagates. *)
Definition try_except {A} (body : M A) (handler : exn -> option (M A)) : M A :=
  fun w =>
    match body w with
    | (Raise e, w') =>
        match handler e with
        | Some h => h w'
        | None => (Raise e, w')
        end
    | other => other
    end.

(** [try: body / finally: cleanup]: the cleanup runs when the body returns
    and when it raises, and the body's outcome is kept. It has not run yet
    while the body is still running. *)
Definition try_finally {A} (body : M A) (cleanup : M unit) : M A :=
  fun w =>
    match body w with
    | (Blocked, w') => (Blocked, w')
    | (r, w') =>
        match cleanup w' with
        | (Normal _, w'') => (r, w'')
        | (Raise e, w'') => (Raise e, w'')
        | (Blocked, w'') => (Blocked, w'')
        end
    end.

Declare Scope py_scope.
Delimit Scope py_scope with py.
Notation "x <- m ;; k" := (bind m (fun x => k))
  (at level 61, m at next level, right associativity) : py_scope.
Notation "m ;; k" := (bind m (fun _ => k))
  (at level 61, right associativity) : py_scope.
Local Open Scope py_scope.

Definition logger_info (r : log_record) : M unit := emit (Log r).
Definition logger_error (r : log_record) : M unit := emit (Log r).

(** [max(counts)]: [ValueError] on an empty list. *)
Definition py_max (l : list Z) : outcome Z :=
  match l with
  | [] => Raised ValueError
  | x :: r => Returned (fold_left Z.max r x)
  end.

(** The two places where [update_chart] hands the bars to matplotlib. *)
Inductive mpl_call :=
| Call_bar       (* ax.bar, set_xlabel, set_ylabel, set_title *)
| Call_refresh.  (* set_ylim, xticks, tight_layout, draw, pause *)

(* ================================================================== *)
(** ** The data file *)

(** The text of the file as the text layer decodes it (line ends already
    translated to [\n]) and the position of the next read. *)
Record text_file := mkFile {
  content : str;
  pos : nat
}.

(** What has been written and not read yet. *)
Definition unread (f : text_file) : str := skipn (pos f) (content f).

(** The text up to and including the first [\n], or all of it. *)
Fixpoint take_line (s : str) : str :=
  match s with
  | [] => []
  | c :: r => if N.eqb c NL then [c] else c :: take_line r
  end.

(** [file.readline()]: one line with its [\n]; at the end of the file,
    whatever is left, possibly nothing. *)
Definition readline (f : text_file) : str * text_file :=
  let line := take_line (unread f) in
  (line, {| content := content f; pos := (pos f + List.length line)%nat |}).

(** [file.seek(0, os.SEEK_END)] *)
Definition seek_end (f : text_file) : text_file :=
  {| content := content f; pos := List.length (content f) |}.

(** The producer appends to the file; the reader's position stays. *)
Definition append (s : str) (f : text_file) : text_file :=
  {| content := content f ++ s; pos := pos f |}.

(** What the environment does at one iteration of the loop: the producer
    has appended [s] (possibly nothing) since the last read, or the read is
    cut short by an exception (the file became unreadable, or a signal was
    delivered). *)
Inductive event :=
| Appended (s : str)
| Fails (e : exn).

(** What [main] finds when it starts. *)
Record startup := mkStartup {
  file_exists : bool;
  open_result : outcome str
}.

Definition open_data_file (s : startup) : M text_file :=
  text <- lift (open_result s) ;;
  ret {| content := text; pos := 0 |}.

Definition file_readline (ev : event) (f : text_file) : M (str * text_file) :=
  match ev with
  | Appended s => ret (readline (append s f))
  | Fails e => raise e
  end.

Definition time_sleep : M unit := emit Sleep.

(** [while True: body], one event per iteration. The loop never returns:
    it ends by an exception, or it is still running when the events are
    used up. *)
Fixpoint while_true {S A} (body : event -> S -> M S) (events : list event)
  (s : S) : M A :=
  match events with
  | [] => blocked
  | ev :: rest => s' <- body ev s ;; while_true body rest s'
  end.

(* ================================================================== *)
(** ** The consumer *)

Section Consumer.

(** [json.loads]: the decoded value, or the exception it raises. *)
Variable json_loads : str -> outcome pyval.

(** The plotting backend: whether a group of matplotlib calls raises, and
    what. It may depend on everything that happened before (the trace is
    part of the world), so it also covers an interrupt delivered during
    [plt.pause]. *)
Variable mpl_raises : mpl_call -> world -> option exn.

Definition matplotlib (c : mpl_call) : M unit :=
  fun w => match mpl_raises c w with
           | Some e => (Raise e, w)
           | None => (Normal tt, w)
           end.

Definition update_chart : M unit :=
  emit Ax_clear ;;
  total <- read total_messages ;;
  if total =? 0 then ret tt
  else
    d <- read author_counts ;;
    let authors := List.map fst d in
    let counts := List.map snd d in
    matplotlib Call_bar ;;
    top <- lift (py_max counts) ;;
    matplotlib Call_refresh ;;
    emit (Draw authors counts (top + 2)).

(** [author_counts[author] += 1] *)
Definition incr_author_count (author : pyval) : M unit :=
  match key_of author with
  | None => raise TypeError
  | Some h =>
      d <- read author_counts ;;
      let (n, d') := getitem_default h author d in
      set_author_counts (setitem h author (n + 1) d')
  end.

Definition process_message (message : str) : M unit :=
  try_except
    (message_dict <- lift (json_loads message) ;;
     match message_dict with
     | PDict d =>
         let author := dict_get d (py "author") (PStr (py "Unknown")) in
         incr_author_count author ;;
         total <- read total_messages ;;
         set_total_messages (total + 1) ;;
         w <- read (fun w => w) ;;
         logger_info (INFO_totals (total_messages w) (author_counts w)) ;;
         update_chart
     | _ =>
         (* not isinstance(message_dict, dict) *)
         logger_error (ERROR_not_dict message_dict)
     end)
    (fun e =>
       if is_JSONDecodeError e then
         Some (logger_error (ERROR_invalid_json message))
       else if is_Exception e then
         Some (logger_error (ERROR_processing e))
       else None).

(** *** The tailing loop *)

(** One pass through the body of [while True] in [main]. *)
Definition loop_body (ev : event) (file : text_file) : M text_file :=
  line_file <- file_readline ev file ;;
  let (line, file) := (line_file : str * text_file) in
  (if truthy (strip line) then process_message line
   else time_sleep) ;;
  ret file.

(** The [try] block of [main]. *)
Definition main_try (s : startup) (events : list event) : M unit :=
  file <- open_data_file s ;;
  let file := seek_end file in
  emit Print_ready ;;
  while_true loop_body events file.

(** [main] *)
Definition main (s : startup) (events : list event) : M unit :=
  logger_info INFO_start ;;
  (if negb (file_exists s) then
     logger_error ERROR_missing_file ;;
     raise (SystemExit 1)
   else ret tt) ;;
  try_finally
    (try_except
       (main_try s events)
       (fun e =>
          if is_KeyboardInterrupt e then
            Some (logger_info INFO_interrupted)
          else if is_Exception e then
            Some (logger_error (ERROR_unexpected e))
          else None))
    (emit Ioff_show ;;
     logger_info INFO_closed).

(** [process_message] on each message in turn, as the loop does with the
    lines it reads; an exception that leaves [process_message] ends it. *)
Fixpoint process_all (messages : list str) : M unit :=
  match messages with
  | [] => ret tt
  | message :: rest => process_message message ;; process_all rest
  end.

(** Running the script: the exit status of the interpreter, when [main]
    has ended. An exception that reaches the top level ends the process
    with status 1, [sys.exit(n)] with [n], an interrupt with 130. *)
Definition exit_status (r : result unit) : option Z :=
  match r with
  | Normal _ => Some 0
  | Raise (SystemExit n) => Some n
  | Raise KeyboardInterrupt => Some 130
  | Raise _ => Some 1
  | Blocked => None
  end.

Definition run_script (s : startup) (events : list event) : option Z * world :=
  let (r, w) := main s events initial_world in (exit_status r, w).

End Consumer.

(* ================================================================== *)
(** ** Notions used to state the properties *)

(** The aggregate: the per-author counts and the total. *)
Definition aggregate (w : world) : list (pyval * Z) * Z :=
  (author_counts w, total_messages w).

(** [total_messages == sum(author_counts.values())] *)
Definition consistent (w : world) : Prop :=
  total_messages w = sum_values (author_counts w).

(** A snapshot of the aggregate that the script shows, in the log or on the
    chart, is consistent too. *)
Definition consistent_effect (x : effect) : Prop :=
  match x with
  | Log (INFO_totals total counts) => total = sum_values counts
  | _ => True
  end.

(** The invariant of the script: the aggregate is consistent, and so was
    every snapshot shown so far. *)
Definition invariant (w : world) : Prop :=
  consistent w /\ Forall consistent_effect (trace w).

(** A computation that keeps the invariant, however it ends. *)
Definition preserves {A} (m : M A) : Prop :=
  forall w, invariant w -> invariant (snd (m w)).

(** The author a decoded object is counted under. *)
Definition author_of (d : list (str * pyval)) : pyval :=
  dict_get d (py "author") (PStr (py "Unknown")).

Definition Unknown : hkey := HStr (py "Unknown").

(** [d[k] += 1] on the dictionary alone, for a hashable [k]. *)
Definition incr (h : hkey) (k : pyval) (d : list (pyval * Z)) : list (pyval * Z) :=
  let (n, d') := getitem_default h k d in setitem h k (n + 1) d'.

(** The count an author has, [0] for an author not seen yet. *)
Definition count_or_0 (h : hkey) (d : list (pyval * Z)) : Z :=
  match count_of h d with Some n => n | None => 0 end.

(** What one message does to the aggregate, whatever the chart does. *)
Definition fold_message (json_loads : str -> outcome pyval) (message : str)
  (a : list (pyval * Z) * Z) : list (pyval * Z) * Z :=
  match json_loads message with
  | Returned (PDict d) =>
      match key_of (author_of d) with
      | Some h => (incr h (author_of d) (fst a), snd a + 1)
      | None => a
      end
  | _ => a
  end.

(** The aggregate after a sequence of messages, each folded in turn. *)
Definition fold_messages (json_loads : str -> outcome pyval) (messages : list str)
  (a : list (pyval * Z) * Z) : list (pyval * Z) * Z :=
  fold_left (fun a message => fold_message json_loads message a) messages a.

(** Two aggregates with the same count for every author and the same total.
    (The order in which the authors were first seen may differ.) *)
Definition same_aggregate (a b : list (pyval * Z) * Z) : Prop :=
  (forall h, count_of h (fst a) = count_of h (fst b)) /\ snd a = snd b.

(** A valid record: a line that decodes to a JSON object. *)
Definition valid_record (json_loads : str -> outcome pyval) (message : str) : Prop :=
  exists d, json_loads message = Returned (PDict d).

Definition is_str (v : pyval) : bool :=
  match v with PStr _ => true | _ => false end.

Definition log_of (w : world) (r : log_record) : world :=
  {| author_counts := author_counts w;
     total_messages := total_messages w;
     trace := trace w ++ [Log r] |}.

(** The world once a record for [author] has been counted and the running
    totals logged, before the chart is redrawn. *)
Definition counted (h : hkey) (author : pyval) (w : world) : world :=
  let d := incr h author (author_counts w) in
  {| author_counts := d;
     total_messages := total_messages w + 1;
     trace := trace w ++ [Log (INFO_totals (total_messages w + 1) d)] |}.

(** The [except] clauses of [process_message]. *)
Definition process_message_handler (message : str) (e : exn) : option (M unit) :=
  if is_JSONDecodeError e then
    Some (logger_error (ERROR_invalid_json message))
  else if is_Exception e then
    Some (logger_error (ERROR_processing e))
  else None.

(** The effect [process_message] ends on: the chart was redrawn (or only
    cleared, when there is nothing to draw), or an error record was
    written. *)
Definition closes_message (x : effect) : bool :=
  match x with
  | Log r => is_error_record r
  | Draw _ _ _ => true
  | Ax_clear => true
  | _ => false
  end.

(** Collaborators that raise errors only ([Exception] and its subclasses),
    no interrupt and no [SystemExit]. *)
Definition loads_raises_errors (json_loads : str -> outcome pyval) : Prop :=
  forall message e, json_loads message = Raised e -> is_Exception e = true.

Definition backend_raises_errors (mpl_raises : mpl_call -> world -> option exn) : Prop :=
  forall c w e, mpl_raises c w = Some e -> is_Exception e = true.

(** A backend that never raises. *)
Definition quiet_backend : mpl_call -> world -> option exn := fun _ _ => None.

(** A backend interrupted (Ctrl-C) during [plt.pause]. *)
Definition interrupted_backend : mpl_call -> world -> option exn :=
  fun c _ => match c with Call_refresh => Some KeyboardInterrupt | Call_bar => None end.

(** The data file exists and opens, with [text] in it. *)
Definition file_with (text : str) : startup :=
  {| file_exists := true; open_result := Returned text |}.

Definition no_file : startup :=
  {| file_exists := false; open_result := Raised OSError |}.

Definition no_newline (s : str) : Prop := ~ In NL s.

(** A complete line of the data file: the JSON text and its line end. *)
Definition line (s : string) : str := jq s ++ [NL].

(** A backend whose every call fails with an error. *)
Definition failing_backend : mpl_call -> world -> option exn :=
  fun _ _ => Some OSError.

(** [author_counts.keys()]: the authors, in the order they were first seen. *)
Definition keys (d : list (pyval * Z)) : list pyval := List.map fst d.

(** What a [defaultdict(int)] that is only ever incremented looks like: no
    two keys are equal (as Python compares them), every key is hashable,
    every count is at least 1; and the total is not negative. *)
Definition well_formed (a : list (pyval * Z) * Z) : Prop :=
  NoDup (List.map (fun kv => key_of (fst kv)) (fst a)) /\
  Forall (fun kv => key_of (fst kv) <> None /\ 1 <= snd kv) (fst a) /\
  0 <= snd a.

(** A computation that keeps a property of the world, however it ends. *)
Definition keeps {A} (I : world -> Prop) (m : M A) : Prop :=
  forall w, I w -> I (snd (m w)).

(** The key a message is counted under, when it is counted at all: when it
    decodes to an object whose author is hashable. *)
Definition counted_key (json_loads : str -> outcome pyval) (message : str)
  : option hkey :=
  match json_loads message with
  | Returned (PDict d) => key_of (author_of d)
  | _ => None
  end.

(** How many of the messages are counted under [h]. *)
Definition tally (json_loads : str -> outcome pyval) (h : hkey)
  (messages : list str) : Z :=
  Z.of_nat (List.length
    (List.filter (fun m => match counted_key json_loads m with
                           | Some h' => hkey_eqb h h'
                           | None => false
                           end) messages)).

(** How many of the messages are counted. *)
Definition counted_messages (json_loads : str -> outcome pyval)
  (messages : list str) : Z :=
  Z.of_nat (List.length
    (List.filter (fun m => match counted_key json_loads m with
                           | Some _ => true
                           | None => false
                           end) messages)).

(** The cursor is inside the file. *)
Definition in_bounds (f : text_file) : Prop :=
  (pos f <= List.length (content f))%nat.

(** A line with its line end, and no other line end in it. *)
Definition complete_line (l : str) : Prop :=
  exists body, l = body ++ [NL] /\ no_newline body.


(* ================================================================== *)
(** ** Text and keys *)

Lemma str_eqb_eq (a b : str) : str_eqb a b = true <-> a = b.
Proof.
  revert b; induction a as [|x a IH]; intros [|y b]; simpl;
    try (split; [discriminate | discriminate]); try tauto.
  rewrite andb_true_iff, N.eqb_eq, IH.
  split; [intros [-> ->]; reflexivity | intros H; inversion H; auto].
Qed.

Lemma hkey_eqb_eq (a b : hkey) : hkey_eqb a b = true <-> a = b.
Proof.
  destruct a, b; simpl; try (split; [discriminate | discriminate]); try tauto.
  - rewrite str_eqb_eq. split; [intros -> | intros H; inversion H]; auto.
  - rewrite andb_true_iff, !Z.eqb_eq.
    split; [intros [-> ->] | intros H; inversion H]; auto.
  - rewrite Bool.eqb_true_iff. split; [intros -> | intros H; inversion H]; auto.
Qed.

Lemma hkey_eqb_refl (h : hkey) : hkey_eqb h h = true.
Proof. now apply hkey_eqb_eq. Qed.

Lemma same_key_iff (h : hkey) (k : pyval) : same_key h k = true <-> key_of k = Some h.
Proof.
  unfold same_key. destruct (key_of k) as [h'|].
  - rewrite hkey_eqb_eq. split; [intros -> | intros H; inversion H]; auto.
  - split; discriminate.
Qed.

Lemma dyadic_is_number (m e : Z) : exists m' e', dyadic m e = HNum m' e'.
Proof.
  unfold dyadic. destruct m as [|p|p]; try destruct (strip_twos p e); eauto.
Qed.

(** Only a string has a string for key. *)
Lemma key_of_str (v : pyval) (s : str) : key_of v = Some (HStr s) -> v = PStr s.
Proof.
  destruct v as [|b|z|f|t|l|d]; simpl; try discriminate.
  - destruct (dyadic_is_number (if b then 1 else 0) 0) as (m' & e' & ->). discriminate.
  - destruct (dyadic_is_number z 0) as (m' & e' & ->). discriminate.
  - destruct f as [sg|sg| |sg m e]; simpl; try discriminate.
    destruct (dyadic_is_number (if sg then Z.neg m else Z.pos m) e) as (m' & e' & ->).
    discriminate.
  - now intros [= ->].
Qed.

Lemma lstrip_blank (s : str) : Forall (fun c => is_space c = true) s -> lstrip s = [].
Proof.
  induction 1 as [|c s Hc _ IH]; simpl; [reflexivity|]. now rewrite Hc.
Qed.

Lemma strip_blank (s : str) : Forall (fun c => is_space c = true) s -> strip s = [].
Proof.
  intros H. unfold strip, rstrip. now rewrite (lstrip_blank s H).
Qed.

Lemma lstrip_nil_blank (s : str) : lstrip s = [] -> Forall (fun c => is_space c = true) s.
Proof.
  induction s as [|c s IH]; simpl; [constructor|].
  destruct (is_space c) eqn:E; [|discriminate]. auto.
Qed.

Lemma lstrip_head (s : str) :
  lstrip s = [] \/ exists c r, lstrip s = c :: r /\ is_space c = false.
Proof.
  induction s as [|c s IH]; simpl; [now left|].
  destruct (is_space c) eqn:E; [exact IH|]. right. eauto.
Qed.

Lemma lstrip_app_keep (a : str) (c : N) :
  is_space c = false -> lstrip (a ++ [c]) <> [].
Proof.
  intros Hc. induction a as [|x a IH]; simpl.
  - now rewrite Hc.
  - destruct (is_space x); [exact IH | discriminate].
Qed.

(** The test [if line.strip():] fails exactly on the lines made of
    whitespace only. *)
Lemma strip_falsy_iff (s : str) :
  truthy (strip s) = false <-> Forall (fun c => is_space c = true) s.
Proof.
  split.
  - intros H. apply lstrip_nil_blank.
    destruct (lstrip_head s) as [E | (c & r & E & Hc)]; [exact E|].
    exfalso. unfold strip, rstrip in H. rewrite E in H.
    simpl rev in H.
    destruct (lstrip (rev r ++ [c])) as [|x l] eqn:E'.
    + now apply (lstrip_app_keep (rev r) c Hc).
    + simpl in H. destruct (rev l); simpl in H; discriminate.
  - intros H. now rewrite (strip_blank s H).
Qed.

(* ================================================================== *)
(** ** Reading lines *)

Lemma take_line_skipn (s : str) :
  s = take_line s ++ skipn (List.length (take_line s)) s.
Proof.
  induction s as [|c r IH]; simpl; [reflexivity|].
  destruct (N.eqb c NL); simpl; [reflexivity|]. now rewrite <- IH.
Qed.

(** A read returns the head of the unread text and leaves the rest unread:
    nothing is read twice and nothing is skipped. *)
Lemma readline_unread (f : text_file) :
  unread f = fst (readline f) ++ unread (snd (readline f)) /\
  pos (snd (readline f)) = (pos f + List.length (fst (readline f)))%nat.
Proof.
  unfold readline, unread. simpl. split; [|reflexivity].
  rewrite Nat.add_comm, <- skipn_skipn. apply take_line_skipn.
Qed.

Lemma take_line_no_newline (s : str) : no_newline s -> take_line s = s.
Proof.
  unfold no_newline. induction s as [|c r IH]; simpl; intros H; [reflexivity|].
  destruct (N.eqb c NL) eqn:E.
  - apply N.eqb_eq in E. exfalso. apply H. now left.
  - f_equal. apply IH. intros Hin. apply H. now right.
Qed.

Lemma take_line_terminated (l rest : str) :
  no_newline l -> take_line (l ++ NL :: rest) = l ++ [NL].
Proof.
  unfold no_newline. induction l as [|c r IH]; simpl; intros H.
  - reflexivity.
  - destruct (N.eqb c NL) eqn:E.
    + apply N.eqb_eq in E. exfalso. apply H. now left.
    + f_equal. apply IH. intros Hin. apply H. now right.
Qed.

Lemma unread_append (s : str) (f : text_file) :
  (pos f <= List.length (content f))%nat ->
  unread (append s f) = unread f ++ s.
Proof.
  intros H. unfold unread, append. simpl. rewrite skipn_app.
  replace (pos f - List.length (content f))%nat with 0%nat by lia. reflexivity.
Qed.

(* ================================================================== *)
(** ** The dictionary of counts *)

Lemma count_of_setitem (h : hkey) (k : pyval) (n : Z) (d : list (pyval * Z)) (h' : hkey) :
  key_of k = Some h ->
  count_of h' (setitem h k n d) = if hkey_eqb h' h then Some n else count_of h' d.
Proof.
  intros Hk. induction d as [|[k' n'] r IH]; simpl.
  - unfold same_key. rewrite Hk. reflexivity.
  - destruct (same_key h k') eqn:E; simpl.
    + apply same_key_iff in E. unfold same_key. rewrite E.
      destruct (hkey_eqb h' h); reflexivity.
    + destruct (same_key h' k') eqn:E'.
      * apply same_key_iff in E'.
        destruct (hkey_eqb h' h) eqn:Eh; [|reflexivity].
        apply hkey_eqb_eq in Eh. subst h'.
        apply same_key_iff in E'. congruence.
      * exact IH.
Qed.

Lemma sum_values_setitem (h : hkey) (k : pyval) (n : Z) (d : list (pyval * Z)) :
  sum_values (setitem h k n d) = sum_values d - count_or_0 h d + n.
Proof.
  unfold count_or_0. induction d as [|[k' n'] r IH]; simpl.
  - lia.
  - destruct (same_key h k'); simpl; lia.
Qed.

Lemma count_of_incr (h : hkey) (k : pyval) (d : list (pyval * Z)) (h' : hkey) :
  key_of k = Some h ->
  count_of h' (incr h k d) =
  if hkey_eqb h' h then Some (count_or_0 h d + 1) else count_of h' d.
Proof.
  intros Hk. unfold incr, getitem_default, count_or_0.
  destruct (count_of h d) as [n|] eqn:E.
  - now rewrite count_of_setitem.
  - rewrite !count_of_setitem by assumption.
    destruct (hkey_eqb h' h); reflexivity.
Qed.

Lemma sum_values_incr (h : hkey) (k : pyval) (d : list (pyval * Z)) :
  key_of k = Some h -> sum_values (incr h k d) = sum_values d + 1.
Proof.
  intros Hk. unfold incr, getitem_default.
  destruct (count_of h d) as [n|] eqn:E.
  - rewrite sum_values_setitem. unfold count_or_0. rewrite E. lia.
  - rewrite !sum_values_setitem. unfold count_or_0.
    rewrite count_of_setitem by assumption. rewrite hkey_eqb_refl, E. lia.
Qed.

(** Counts never go down, and no author is ever removed. *)
Lemma count_of_incr_grows (h : hkey) (k : pyval) (d : list (pyval * Z)) (h' : hkey) (n : Z) :
  key_of k = Some h -> count_of h' d = Some n ->
  exists n', count_of h' (incr h k d) = Some n' /\ n <= n'.
Proof.
  intros Hk Hn. rewrite count_of_incr by assumption.
  destruct (hkey_eqb h' h) eqn:E.
  - apply hkey_eqb_eq in E. subst h'. unfold count_or_0. rewrite Hn.
    eexists; split; [reflexivity | lia].
  - eexists; split; [eassumption | lia].
Qed.

Lemma count_or_0_incr (h : hkey) (k : pyval) (d : list (pyval * Z)) (h' : hkey) :
  key_of k = Some h ->
  count_or_0 h' (incr h k d) =
  if hkey_eqb h' h then count_or_0 h d + 1 else count_or_0 h' d.
Proof.
  intros Hk. unfold count_or_0 at 1. rewrite count_of_incr by assumption.
  destruct (hkey_eqb h' h); reflexivity.
Qed.

(* ================================================================== *)
(** ** The fold over messages does not depend on their order *)

Lemma same_aggregate_refl a : same_aggregate a a.
Proof. split; auto. Qed.

Lemma same_aggregate_trans a b c :
  same_aggregate a b -> same_aggregate b c -> same_aggregate a c.
Proof.
  intros [H1 H2] [H3 H4]. split; [|congruence].
  intros h. now rewrite H1.
Qed.

Section Fold.

Variable json_loads : str -> outcome pyval.

Lemma fold_message_congr (message : str) a b :
  same_aggregate a b ->
  same_aggregate (fold_message json_loads message a)
                 (fold_message json_loads message b).
Proof.
  intros [Hc Ht]. unfold fold_message.
  destruct (json_loads message) as [[| | | | | |d]|]; try (split; assumption).
  destruct (key_of (author_of d)) as [h|] eqn:Hk; [|split; assumption].
  split; simpl; [|congruence].
  intros h'. rewrite !count_of_incr by assumption.
  unfold count_or_0. now rewrite !Hc.
Qed.

Lemma incr_swap (h1 h2 : hkey) (k1 k2 : pyval) (d : list (pyval * Z)) (h : hkey) :
  key_of k1 = Some h1 -> key_of k2 = Some h2 ->
  count_of h (incr h1 k1 (incr h2 k2 d)) = count_of h (incr h2 k2 (incr h1 k1 d)).
Proof.
  intros H1 H2.
  rewrite !count_of_incr, !count_or_0_incr by assumption.
  destruct (hkey_eqb h h1) eqn:E1, (hkey_eqb h h2) eqn:E2,
           (hkey_eqb h1 h2) eqn:E12, (hkey_eqb h2 h1) eqn:E21;
    try reflexivity;
    repeat match goal with
           | H : hkey_eqb _ _ = true |- _ => apply hkey_eqb_eq in H; subst
           end;
    rewrite ?hkey_eqb_refl in *; try discriminate; try congruence.
Qed.

Lemma fold_message_swap (m1 m2 : str) a :
  same_aggregate (fold_message json_loads m1 (fold_message json_loads m2 a))
                 (fold_message json_loads m2 (fold_message json_loads m1 a)).
Proof.
  unfold fold_message.
  destruct (json_loads m1) as [[| | | | | |d1]|]; try apply same_aggregate_refl;
    destruct (json_loads m2) as [[| | | | | |d2]|]; try apply same_aggregate_refl.
  destruct (key_of (author_of d1)) as [h1|] eqn:H1;
    destruct (key_of (author_of d2)) as [h2|] eqn:H2;
    try apply same_aggregate_refl.
  split; simpl; [|lia]. intros h. now apply incr_swap.
Qed.

Lemma fold_messages_congr (messages : list str) a b :
  same_aggregate a b ->
  same_aggregate (fold_messages json_loads messages a)
                 (fold_messages json_loads messages b).
Proof.
  revert a b. induction messages as [|m rest IH]; intros a b H; simpl; auto.
  apply IH. now apply fold_message_congr.
Qed.

Lemma fold_messages_permutation (l l' : list str) :
  Permutation l l' ->
  forall a, same_aggregate (fold_messages json_loads l a)
                           (fold_messages json_loads l' a).
Proof.
  induction 1 as [|m l l' _ IH|m1 m2 l|l l' l'' _ IH1 _ IH2]; intros a; simpl.
  - apply same_aggregate_refl.
  - apply IH.
  - apply fold_messages_congr, fold_message_swap.
  - eapply same_aggregate_trans; [apply IH1 | apply IH2].
Qed.

End Fold.

(* ================================================================== *)
(** ** Keeping the invariant through the monad *)

Lemma preserves_ret {A} (a : A) : preserves (ret a).
Proof. intros w H. exact H. Qed.

Lemma preserves_raise {A} (e : exn) : preserves (@raise A e).
Proof. intros w H. exact H. Qed.

Lemma preserves_blocked {A} : preserves (@blocked A).
Proof. intros w H. exact H. Qed.

Lemma preserves_lift {A} (r : outcome A) : preserves (lift r).
Proof. intros w H. destruct r; exact H. Qed.

Lemma preserves_read {A} (f : world -> A) : preserves (read f).
Proof. intros w H. exact H. Qed.

Lemma preserves_emit (x : effect) : consistent_effect x -> preserves (emit x).
Proof.
  intros Hx w [Hc Ht]. split; [exact Hc|]. simpl.
  apply Forall_app. split; [exact Ht | now constructor].
Qed.

Lemma preserves_bind {A B} (m : M A) (k : A -> M B) :
  preserves m -> (forall a, preserves (k a)) -> preserves (bind m k).
Proof.
  intros Hm Hk w H. unfold bind. specialize (Hm w H).
  destruct (m w) as [[a|e|] w']; simpl in *; auto. now apply Hk.
Qed.

Lemma preserves_try_except {A} (body : M A) (handler : exn -> option (M A)) :
  preserves body ->
  (forall e h, handler e = Some h -> preserves h) ->
  preserves (try_except body handler).
Proof.
  intros Hb Hh w H. unfold try_except. specialize (Hb w H).
  destruct (body w) as [[a|e|] w']; simpl in *; auto.
  destruct (handler e) as [h|] eqn:E; simpl; auto. now apply (Hh e h E).
Qed.

Lemma preserves_try_finally {A} (body : M A) (cleanup : M unit) :
  preserves body -> preserves cleanup -> preserves (try_finally body cleanup).
Proof.
  intros Hb Hc w H. unfold try_finally. specialize (Hb w H).
  destruct (body w) as [[a|e|] w']; simpl in *; auto;
    specialize (Hc w' Hb); destruct (cleanup w') as [[u|e'|] w'']; simpl in *; auto.
Qed.

Lemma preserves_while_true {S A} (body : event -> S -> M S) (events : list event) :
  (forall ev s, preserves (body ev s)) ->
  forall s, preserves (@while_true S A body events s).
Proof.
  intros Hb. induction events as [|ev rest IH]; intros s; simpl.
  - apply preserves_blocked.
  - apply preserves_bind; auto.
Qed.

Create HintDb preserves.
#[local] Hint Resolve preserves_ret preserves_raise preserves_blocked preserves_lift
  preserves_read preserves_bind preserves_try_except preserves_try_finally
  preserves_while_true : preserves.

Lemma fold_message_consistent (json_loads : str -> outcome pyval) (message : str)
      (a : list (pyval * Z) * Z) :
  snd a = sum_values (fst a) ->
  snd (fold_message json_loads message a)
  = sum_values (fst (fold_message json_loads message a)).
Proof.
  intros H. unfold fold_message.
  destruct (json_loads message) as [[| | | | | |d]|]; auto.
  destruct (key_of (author_of d)) eqn:Hk; auto. simpl.
  rewrite sum_values_incr by assumption. lia.
Qed.

(* ================================================================== *)
(** ** [process_message], case by case *)

Section Properties.

Variable json_loads : str -> outcome pyval.
Variable mpl_raises : mpl_call -> world -> option exn.

Local Abbreviation update_chart' := (update_chart mpl_raises).
Local Abbreviation process_message' := (process_message json_loads mpl_raises).
Local Abbreviation process_all' := (process_all json_loads mpl_raises).
Local Abbreviation loop_body' := (loop_body json_loads mpl_raises).
Local Abbreviation main_try' := (main_try json_loads mpl_raises).
Local Abbreviation main' := (main json_loads mpl_raises).
Local Abbreviation run_script' := (run_script json_loads mpl_raises).

(** What [update_chart] can do: it never touches the aggregate, and it
    ends on the cleared axes, on the drawn bars, or on an exception of the
    backend (or of [max] on no bars). *)
Lemma update_chart_spec (w : world) :
  exists r tail,
    update_chart' w =
      (r, {| author_counts := author_counts w;
             total_messages := total_messages w;
             trace := trace w ++ Ax_clear :: tail |}) /\
    r <> Blocked /\
    (tail = [] \/
     r = Normal tt /\
     exists top, tail = [Draw (List.map fst (author_counts w))
                              (List.map snd (author_counts w)) top]) /\
    (forall e, r = Raise e -> is_Exception e = false ->
               exists c w0, mpl_raises c w0 = Some e).
Proof.
  unfold update_chart, bind, emit, read, ret, matplotlib, lift. cbn.
  destruct (total_messages w =? 0).
  { exists (Normal tt), []. repeat split; auto; discriminate. }
  destruct (mpl_raises Call_bar _) as [e|] eqn:Ebar; cbn.
  { exists (Raise e), []. repeat split; auto; try discriminate.
    intros e' [= <-] _. eauto. }
  destruct (py_max (List.map snd (author_counts w))) as [top|e] eqn:Emax; cbn.
  2:{ exists (Raise e), []. repeat split; auto; try discriminate.
      intros e' [= <-] He. exfalso.
      destruct (List.map snd (author_counts w)); simpl in Emax;
        inversion Emax; subst; discriminate. }
  destruct (mpl_raises Call_refresh _) as [e|] eqn:Eref; cbn.
  { exists (Raise e), []. repeat split; auto; try discriminate.
    intros e' [= <-] _. eauto. }
  exists (Normal tt), [Draw (List.map fst (author_counts w))
                            (List.map snd (author_counts w)) (top + 2)].
  rewrite <- app_assoc. cbn.
  repeat split; auto; try discriminate. right. split; eauto.
Qed.

Lemma process_message_raised (message : str) (e : exn) (w : world) :
  json_loads message = Raised e ->
  process_message' message w =
  match process_message_handler message e with
  | Some h => h w
  | None => (Raise e, w)
  end.
Proof.
  intros H. unfold process_message, try_except, bind, lift. now rewrite H.
Qed.

Lemma process_message_decode_error (message : str) (w : world) :
  json_loads message = Raised JSONDecodeError ->
  process_message' message w = (Normal tt, log_of w (ERROR_invalid_json message)).
Proof. intros H. now rewrite (process_message_raised _ _ _ H). Qed.

Lemma process_message_not_dict (message : str) (v : pyval) (w : world) :
  json_loads message = Returned v ->
  isinstance_dict v = false ->
  process_message' message w = (Normal tt, log_of w (ERROR_not_dict v)).
Proof.
  intros H Hv. unfold process_message, try_except, bind, lift. rewrite H.
  destruct v; try discriminate; reflexivity.
Qed.

Lemma process_message_unhashable (message : str) (d : list (str * pyval)) (w : world) :
  json_loads message = Returned (PDict d) ->
  key_of (author_of d) = None ->
  process_message' message w = (Normal tt, log_of w (ERROR_processing TypeError)).
Proof.
  intros H Hk. unfold process_message, try_except, bind, lift, incr_author_count.
  rewrite H. fold (author_of d). now rewrite Hk.
Qed.

Lemma process_message_counted (message : str) (d : list (str * pyval))
      (h : hkey) (w : world) :
  json_loads message = Returned (PDict d) ->
  key_of (author_of d) = Some h ->
  process_message' message w =
  try_except update_chart' (process_message_handler message)
             (counted h (author_of d) w).
Proof.
  intros H Hk.
  unfold process_message, try_except, bind, lift, incr_author_count.
  rewrite H. fold (author_of d). rewrite Hk.
  unfold read, set_author_counts, set_total_messages, logger_info, emit, counted, incr.
  cbn. destruct (getitem_default h (author_of d) (author_counts w)) as [n d'].
  cbn. reflexivity.
Qed.

(** Everything [process_message] can do, in one statement: the aggregate
    moves as [fold_message] says; the trace only grows, by consistent
    snapshots; the call returns or raises; when it returns, the last
    effect is the redrawn chart or an error record; and what it lets
    through is never an error, only an interrupt or exit raised by the
    decoder or by the backend. *)
Lemma process_message_spec (message : str) (w : world) :
  exists r w' added,
    process_message' message w = (r, w') /\
    aggregate w' = fold_message json_loads message (aggregate w) /\
    trace w' = trace w ++ added /\
    r <> Blocked /\
    (consistent w -> Forall consistent_effect added) /\
    (r = Normal tt -> exists pre x, added = pre ++ [x] /\ closes_message x = true) /\
    (forall e, r = Raise e ->
               is_Exception e = false /\
               (json_loads message = Raised e \/
                exists c w0, mpl_raises c w0 = Some e)).
Proof.
  unfold fold_message.
  destruct (json_loads message) as [v|e] eqn:Hl.
  - destruct (isinstance_dict v) eqn:Hv.
    + destruct v as [| | | | | |d]; try discriminate.
      destruct (key_of (author_of d)) as [h|] eqn:Hk.
      * rewrite (process_message_counted _ _ _ _ Hl Hk).
        destruct (update_chart_spec (counted h (author_of d) w))
          as (r0 & tail & Hu & Hnb & Htail & Hsig).
        unfold try_except. rewrite Hu. cbn [counted author_counts total_messages trace].
        set (info := Log (INFO_totals (total_messages w + 1)
                                      (incr h (author_of d) (author_counts w)))).
        assert (Hinfo : consistent w -> consistent_effect info).
        { unfold consistent. intros Hc. simpl.
          rewrite sum_values_incr by assumption. lia. }
        assert (Htl : Forall consistent_effect tail).
        { destruct Htail as [-> | (_ & top & ->)]; repeat constructor. }
        assert (Hlast : exists pre x, info :: Ax_clear :: tail = pre ++ [x]
                                      /\ closes_message x = true).
        { destruct Htail as [-> | (_ & top & ->)].
          - exists [info], Ax_clear. auto.
          - exists [info; Ax_clear]. eexists. split; [reflexivity | reflexivity]. }
        destruct r0 as [[]|e|]; [| |congruence].
        -- eexists _, _, (info :: Ax_clear :: tail).
           split; [reflexivity|]. cbn.
           rewrite <- app_assoc. cbn.
           repeat split; auto; try discriminate.
           intros Hc. constructor; auto. constructor; simpl; auto.
        -- unfold process_message_handler.
           destruct (is_JSONDecodeError e) eqn:Ej;
             [| destruct (is_Exception e) eqn:Ee ].
           ++ eexists _, _, ((info :: Ax_clear :: tail) ++ [Log (ERROR_invalid_json message)]).
              split; [reflexivity|]. cbn.
              rewrite <- !app_assoc. cbn.
              repeat split; auto; try discriminate.
              ** intros Hc. constructor; auto. constructor; simpl; auto.
                 apply Forall_app. split; auto. repeat constructor.
              ** intros _. exists (info :: Ax_clear :: tail). eexists.
                 split; [reflexivity | reflexivity].
           ++ eexists _, _, ((info :: Ax_clear :: tail) ++ [Log (ERROR_processing e)]).
              split; [reflexivity|]. cbn.
              rewrite <- !app_assoc. cbn.
              repeat split; auto; try discriminate.
              ** intros Hc. constructor; auto. constructor; simpl; auto.
                 apply Forall_app. split; auto. repeat constructor.
              ** intros _. exists (info :: Ax_clear :: tail). eexists.
                 split; [reflexivity | reflexivity].
           ++ eexists _, _, (info :: Ax_clear :: tail).
              split; [reflexivity|]. cbn.
              rewrite <- app_assoc. cbn.
              repeat split; auto; try discriminate.
              ** intros Hc. constructor; auto. constructor; simpl; auto.
              ** inversion H; subst; assumption.
              ** inversion H; subst. right. now apply Hsig.
      * rewrite (process_message_unhashable _ _ _ Hl Hk).
        eexists _, _, [_]. split; [reflexivity|].
        repeat split; auto; try discriminate.
        -- intros _. repeat constructor.
        -- intros _. exists []. eexists. split; reflexivity.
    + rewrite (process_message_not_dict _ _ _ Hl Hv).
      eexists _, _, [_]. split; [reflexivity|].
      repeat split; auto; try discriminate.
      * destruct v; try reflexivity; discriminate.
      * intros _. repeat constructor.
      * intros _. exists []. eexists. split; reflexivity.
  - rewrite (process_message_raised _ _ _ Hl). unfold process_message_handler.
    destruct (is_JSONDecodeError e) eqn:Ej; [| destruct (is_Exception e) eqn:Ee ].
    + eexists _, _, [_]. split; [reflexivity|].
      repeat split; auto; try discriminate.
      * intros _. repeat constructor.
      * intros _. exists []. eexists. split; reflexivity.
    + eexists _, _, [_]. split; [reflexivity|].
      repeat split; auto; try discriminate.
      * intros _. repeat constructor.
      * intros _. exists []. eexists. split; reflexivity.
    + exists (Raise e), w, []. split; [reflexivity|].
      rewrite app_nil_r.
      repeat split; auto; try discriminate.
      * inversion H; subst; assumption.
      * inversion H; subst. now left.
Qed.

Lemma preserves_process_message (message : str) :
  preserves (process_message' message).
Proof.
  intros w [Hc Ht].
  destruct (process_message_spec message w)
    as (r & w' & added & Hp & Hagg & Htr & _ & Hadd & _).
  rewrite Hp. simpl. split.
  - unfold consistent. unfold aggregate in Hagg.
    pose proof (fold_message_consistent json_loads message
                  (author_counts w, total_messages w) Hc) as Hf.
    rewrite <- Hagg in Hf. exact Hf.
  - rewrite Htr. apply Forall_app. split; auto.
Qed.

Lemma preserves_process_all (messages : list str) :
  preserves (process_all' messages).
Proof.
  induction messages as [|m rest IH]; simpl.
  - apply preserves_ret.
  - apply preserves_bind; [apply preserves_process_message | auto].
Qed.

Lemma preserves_loop_body (ev : event) (file : text_file) :
  preserves (loop_body' ev file).
Proof.
  unfold loop_body. apply preserves_bind.
  - destruct ev; simpl; auto with preserves.
  - intros [line file']. apply preserves_bind; [|auto with preserves].
    destruct (truthy (strip line)).
    + apply preserves_process_message.
    + now apply preserves_emit.
Qed.

Lemma preserves_main (s : startup) (events : list event) :
  preserves (main' s events).
Proof.
  unfold main, main_try, open_data_file, logger_info, logger_error.
  apply preserves_bind; [now apply preserves_emit|]. intros _.
  apply preserves_bind.
  { destruct (negb (file_exists s)); [|auto with preserves].
    apply preserves_bind; [now apply preserves_emit | auto with preserves]. }
  intros _. apply preserves_try_finally.
  - apply preserves_try_except.
    + apply preserves_bind; [auto with preserves|]. intros f.
      apply preserves_bind; [now apply preserves_emit|]. intros _.
      apply preserves_while_true. apply preserves_loop_body.
    + intros e h. destruct (is_KeyboardInterrupt e); [|destruct (is_Exception e)];
        intros [= <-]; now apply preserves_emit.
  - apply preserves_bind; [now apply preserves_emit|]. intros _.
    now apply preserves_emit.
Qed.

Lemma invariant_initial : invariant initial_world.
Proof. split; [reflexivity | constructor]. Qed.

(** C1. In every state the script can reach, [total_messages] is the sum
    of the per-author counts: after any sequence of processed messages
    from the empty state, and at any point of any run of [main]; and every
    snapshot logged on the way was consistent as well. *)
Theorem total_is_sum_of_counts (messages : list str) (s : startup)
        (events : list event) :
  let w1 := snd (process_all' messages initial_world) in
  let w2 := snd (main' s events initial_world) in
  (total_messages w1 = sum_values (author_counts w1) /\
   Forall consistent_effect (trace w1)) /\
  (total_messages w2 = sum_values (author_counts w2) /\
   Forall consistent_effect (trace w2)).
Proof.
  split.
  - exact (preserves_process_all messages initial_world invariant_initial).
  - exact (preserves_main s events initial_world invariant_initial).
Qed.

Lemma author_of_missing (d : list (str * pyval)) :
  items_get d (py "author") = None -> author_of d = PStr (py "Unknown").
Proof. intros H. unfold author_of, dict_get. now rewrite H. Qed.

Lemma author_of_present (d : list (str * pyval)) (v : pyval) :
  items_get d (py "author") = Some v -> author_of d = v.
Proof. intros H. unfold author_of, dict_get. now rewrite H. Qed.

Lemma process_message_aggregate (message : str) (w : world) :
  aggregate (snd (process_message' message w))
  = fold_message json_loads message (aggregate w).
Proof.
  destruct (process_message_spec message w) as (r & w' & added & Hp & Hagg & _).
  now rewrite Hp.
Qed.

(** C7. A record that decodes to an object without an [author] field is
    counted under ["Unknown"]: that count goes up by exactly 1 (from 0 if
    it was not there), the total goes up by exactly 1, and no other
    author's count changes. *)
Theorem missing_author_counts_as_Unknown (message : str)
        (d : list (str * pyval)) (w : world) :
  json_loads message = Returned (PDict d) ->
  items_get d (py "author") = None ->
  let w' := snd (process_message' message w) in
  count_of Unknown (author_counts w')
    = Some (count_or_0 Unknown (author_counts w) + 1) /\
  total_messages w' = total_messages w + 1 /\
  forall h, h <> Unknown ->
            count_of h (author_counts w') = count_of h (author_counts w).
Proof.
  intros Hl Ha w'.
  pose proof (process_message_aggregate message w) as Hagg.
  unfold fold_message in Hagg. rewrite Hl, (author_of_missing d Ha) in Hagg.
  cbn [key_of] in Hagg. fold Unknown in Hagg.
  pose proof (f_equal fst Hagg) as Hc. pose proof (f_equal snd Hagg) as Ht.
  cbn [aggregate fst snd] in Hc, Ht. subst w'. cbv zeta. rewrite Hc, Ht.
  assert (Hk : key_of (PStr (py "Unknown")) = Some Unknown) by reflexivity.
  repeat split.
  - rewrite (count_of_incr _ _ _ _ Hk), hkey_eqb_refl. reflexivity.
  - intros h Hne. rewrite (count_of_incr _ _ _ _ Hk).
    destruct (hkey_eqb h Unknown) eqn:E; [|reflexivity].
    apply hkey_eqb_eq in E. contradiction.
Qed.

(** C3, as the code has it. A record whose [author] is present and not a
    string is not rejected for that. When the value is hashable ([null],
    a boolean or a number) the record is counted under that value: its
    count and the total go up by 1, no other count changes. When it is an
    array or an object, the increment raises [TypeError], which is logged
    as a processing error, and the aggregate is unchanged. In both cases
    the count of ["Unknown"] stays as it was. *)
Theorem non_string_author (message : str) (d : list (str * pyval))
        (v : pyval) (w : world) :
  json_loads message = Returned (PDict d) ->
  items_get d (py "author") = Some v ->
  is_str v = false ->
  let w' := snd (process_message' message w) in
  count_of Unknown (author_counts w') = count_of Unknown (author_counts w) /\
  match key_of v with
  | Some h =>
      count_of h (author_counts w') = Some (count_or_0 h (author_counts w) + 1) /\
      total_messages w' = total_messages w + 1 /\
      forall h', h' <> h ->
                 count_of h' (author_counts w') = count_of h' (author_counts w)
  | None =>
      process_message' message w = (Normal tt, log_of w (ERROR_processing TypeError))
  end.
Proof.
  intros Hl Ha Hs w'.
  pose proof (process_message_aggregate message w) as Hagg.
  unfold fold_message in Hagg. rewrite Hl, (author_of_present d v Ha) in Hagg.
  destruct (key_of v) as [h|] eqn:Hk.
  - pose proof (f_equal fst Hagg) as Hc. pose proof (f_equal snd Hagg) as Ht.
    cbn [aggregate fst snd] in Hc, Ht. subst w'. rewrite Hc, Ht.
    assert (Hne : Unknown <> h).
    { intros <-. apply key_of_str in Hk. subst v. discriminate. }
    repeat split.
    + rewrite (count_of_incr _ _ _ _ Hk).
      destruct (hkey_eqb Unknown h) eqn:E; [|reflexivity].
      apply hkey_eqb_eq in E. contradiction.
    + rewrite (count_of_incr _ _ _ _ Hk), hkey_eqb_refl. reflexivity.
    + intros h' Hne'. rewrite (count_of_incr _ _ _ _ Hk).
      destruct (hkey_eqb h' h) eqn:E; [|reflexivity].
      apply hkey_eqb_eq in E. contradiction.
  - assert (Hk' : key_of (author_of d) = None)
      by now rewrite (author_of_present d v Ha).
    pose proof (process_message_unhashable message d w Hl Hk') as Hp.
    subst w'. rewrite Hp. split; reflexivity.
Qed.

(** C8. A line that decodes to valid JSON other than an object (an array,
    a number, a string, [null], a boolean) is a wrong-shape failure:
    [process_message] logs one error record for it, returns, and leaves
    the total and every per-author count as they were. *)
Theorem non_object_is_rejected (message : str) (v : pyval) (w : world) :
  json_loads message = Returned v ->
  isinstance_dict v = false ->
  let (r, w') := process_message' message w in
  r = Normal tt /\
  author_counts w' = author_counts w /\
  total_messages w' = total_messages w /\
  trace w' = trace w ++ [Log (ERROR_not_dict v)] /\
  is_error_record (ERROR_not_dict v) = true.
Proof.
  intros Hl Hv. rewrite (process_message_not_dict message v w Hl Hv).
  repeat split.
Qed.

(** C4, as the code has it. A line that is not valid JSON changes neither
    the total nor any per-author count, and the read that returned it has
    consumed it: the cursor has moved past it, what is left unread is what
    followed it, and the loop goes on with the next event. The failure is
    logged when the line is not blank: [process_message] writes one error
    record for it and returns. A line of whitespace only, which is not
    valid JSON either, is not handed to [process_message]: nothing is
    logged for it and the pass only sleeps. *)
Theorem invalid_json_is_skipped (message : str) (w : world)
        (s : str) (file file' : text_file) (rest : list event) :
  json_loads message = Raised JSONDecodeError ->
  readline (append s file) = (message, file') ->
  let logged := log_of w (ERROR_invalid_json message) in
  let slept := {| author_counts := author_counts w;
                  total_messages := total_messages w;
                  trace := trace w ++ [Sleep] |} in
  let w' := if truthy (strip message) then logged else slept in
  process_message' message w = (Normal tt, logged) /\
  author_counts w' = author_counts w /\
  total_messages w' = total_messages w /\
  loop_body' (Appended s) file w = (Normal file', w') /\
  unread (append s file) = message ++ unread file' /\
  pos file' = (pos file + List.length message)%nat /\
  (truthy (strip message) = true -> (0 < List.length message)%nat) /\
  @while_true text_file unit loop_body' (Appended s :: rest) file w
  = while_true loop_body' rest file' w'.
Proof.
  intros Hl Hr logged slept w'.
  pose proof (process_message_decode_error message w Hl) as Hp.
  assert (Hb : loop_body' (Appended s) file w = (Normal file', w')).
  { unfold loop_body, bind, file_readline, ret. rewrite Hr. subst w'.
    destruct (truthy (strip message)).
    - fold (process_message json_loads mpl_raises message). rewrite Hp.
      reflexivity.
    - reflexivity. }
  pose proof (readline_unread (append s file)) as [Hu Hpos].
  rewrite Hr in Hu, Hpos. simpl in Hu, Hpos.
  split; [exact Hp|].
  split; [subst w'; destruct (truthy (strip message)); reflexivity|].
  split; [subst w'; destruct (truthy (strip message)); reflexivity|].
  split; [exact Hb|].
  split; [exact Hu|].
  split; [exact Hpos|].
  split.
  - intros Ht. destruct message; [vm_compute in Ht; discriminate | simpl; lia].
  - simpl. unfold bind at 1. now rewrite Hb.
Qed.

(** C9. A line made of whitespace only (the empty string that [readline]
    returns at the end of the file included) is not handed to
    [process_message]: whatever the decoder and the backend are, the pass
    through the loop body only sleeps. No record is logged and the
    aggregate is untouched. *)
Theorem blank_line_is_not_processed (s : str) (file file' : text_file)
        (line : str) (w : world) :
  readline (append s file) = (line, file') ->
  Forall (fun c => is_space c = true) line ->
  loop_body' (Appended s) file w =
  (Normal file', {| author_counts := author_counts w;
                    total_messages := total_messages w;
                    trace := trace w ++ [Sleep] |}).
Proof.
  intros Hr Hb. apply strip_falsy_iff in Hb.
  unfold loop_body, bind, file_readline, ret. rewrite Hr, Hb. reflexivity.
Qed.

Lemma process_message_returns (message : str) (w : world) :
  loads_raises_errors json_loads ->
  backend_raises_errors mpl_raises ->
  fst (process_message' message w) = Normal tt.
Proof.
  intros HL HB.
  destruct (process_message_spec message w)
    as (r & w' & added & Hp & _ & _ & Hnb & _ & _ & Hsig).
  rewrite Hp. simpl. destruct r as [[]|e|]; [reflexivity| |congruence].
  destruct (Hsig e eq_refl) as [He [H | (c & w0 & H)]].
  - apply HL in H. congruence.
  - apply HB in H. congruence.
Qed.

(** C10. [process_message] lets no error out. Whatever the message, when
    the decoder and the backend raise errors only ([Exception] and its
    subclasses), the call returns, and every error raised on the way is
    caught and logged: a decoding error, a [TypeError] from the increment,
    and an error raised while the chart is redrawn each leave their error
    record as the last effect of the call. When nothing is raised the call
    ends on the chart update itself. *)
Theorem process_message_contains_errors (message : str) (w : world) :
  loads_raises_errors json_loads ->
  backend_raises_errors mpl_raises ->
  exists w' pre x,
    process_message' message w = (Normal tt, w') /\
    trace w' = trace w ++ pre ++ [x] /\
    closes_message x = true /\
    (forall e, json_loads message = Raised e ->
       pre = [] /\
       x = Log (if is_JSONDecodeError e then ERROR_invalid_json message
                else ERROR_processing e)) /\
    (forall d, json_loads message = Returned (PDict d) ->
       key_of (author_of d) = None ->
       pre = [] /\ x = Log (ERROR_processing TypeError)) /\
    (forall d h, json_loads message = Returned (PDict d) ->
       key_of (author_of d) = Some h ->
       match update_chart' (counted h (author_of d) w) with
       | (Raise e, w1) =>
           let record := if is_JSONDecodeError e then ERROR_invalid_json message
                         else ERROR_processing e in
           is_error_record record = true /\
           x = Log record /\
           w' = log_of w1 record
       | (_, w1) =>
           w' = w1 /\ exists authors counts ylim,
                        x = Draw authors counts ylim \/ x = Ax_clear
       end).
Proof.
  intros HL HB.
  pose proof (process_message_returns message w HL HB) as Hn.
  destruct (process_message_spec message w)
    as (r & w' & added & Hp & _ & Htr & _ & _ & Hlast & _).
  rewrite Hp in Hn. simpl in Hn. subst r.
  destruct (Hlast eq_refl) as (pre & x & -> & Hx).
  exists w', pre, x.
  split; [exact Hp|]. split; [exact Htr|]. split; [exact Hx|].
  split; [|split].
  - intros e H.
    pose proof (process_message_raised message e w H) as Hr.
    unfold process_message_handler in Hr. rewrite (HL _ _ H) in Hr.
    rewrite Hp in Hr.
    destruct (is_JSONDecodeError e); inversion Hr; subst w';
      simpl in Htr; apply app_inv_head in Htr;
      destruct pre as [|? [|? ?]]; inversion Htr; split; reflexivity.
  - intros d H H0.
    pose proof (process_message_unhashable message d w H H0) as Hr.
    rewrite Hp in Hr. inversion Hr; subst w'.
    simpl in Htr; apply app_inv_head in Htr;
      destruct pre as [|? [|? ?]]; inversion Htr; split; reflexivity.
  - intros d h Hl Hk.
    pose proof (process_message_counted message d h w Hl Hk) as Hc.
    rewrite Hp in Hc. unfold try_except in Hc.
    destruct (update_chart_spec (counted h (author_of d) w))
      as (r0 & tail & Hu & Hnb & Htail & Hsig).
    rewrite Hu in Hc |- *.
    assert (Hend : forall a b : list effect, forall y z : effect,
               a ++ [y] = b ++ [z] -> y = z).
    { intros a b y z H. now apply app_inj_tail in H. }
    destruct r0 as [[]|e|]; [| |congruence].
    + inversion Hc; subst w'. split; [reflexivity|].
      cbn [trace counted] in Htr.
      destruct Htail as [-> | (_ & top & ->)].
      * exists [], [], 0. right.
        rewrite (app_assoc (trace w) pre [x]) in Htr.
        rewrite <- app_assoc in Htr.
        change (trace w ++ [Log (INFO_totals (total_messages w + 1)
                   (incr h (author_of d) (author_counts w)))] ++ [Ax_clear])
          with (trace w ++ [Log (INFO_totals (total_messages w + 1)
                   (incr h (author_of d) (author_counts w)))] ++ [] ++ [Ax_clear])
          in Htr.
        rewrite !app_assoc in Htr. symmetry. exact (Hend _ _ _ _ Htr).
      * eexists _, _, _. left.
        rewrite (app_assoc (trace w) pre [x]) in Htr.
        rewrite <- app_assoc in Htr.
        change (Ax_clear :: [Draw (List.map fst (author_counts (counted h (author_of d) w)))
                                  (List.map snd (author_counts (counted h (author_of d) w)))
                                  top])
          with ([Ax_clear] ++ [Draw (List.map fst (author_counts (counted h (author_of d) w)))
                                    (List.map snd (author_counts (counted h (author_of d) w)))
                                    top]) in Htr.
        rewrite !app_assoc in Htr. symmetry. exact (Hend _ _ _ _ Htr).
    + assert (He : is_Exception e = true).
      { destruct (is_Exception e) eqn:E; [reflexivity|].
        destruct (Hsig e eq_refl E) as (c & w0 & H). apply HB in H. congruence. }
      unfold process_message_handler in Hc. rewrite He in Hc.
      assert (Hw : w' = log_of
                {| author_counts := author_counts (counted h (author_of d) w);
                   total_messages := total_messages (counted h (author_of d) w);
                   trace := trace (counted h (author_of d) w) ++ Ax_clear :: tail |}
                (if is_JSONDecodeError e then ERROR_invalid_json message
                 else ERROR_processing e)).
      { destruct (is_JSONDecodeError e); inversion Hc; reflexivity. }
      split; [destruct (is_JSONDecodeError e); reflexivity|].
      split; [|exact Hw].
      rewrite Hw in Htr. cbn [trace log_of] in Htr.
      rewrite (app_assoc (trace w) pre [x]) in Htr.
      symmetry. exact (Hend _ _ _ _ Htr).
Qed.

Lemma process_all_aggregate (messages : list str) (w : world) :
  fst (process_all' messages w) = Normal tt ->
  aggregate (snd (process_all' messages w))
  = fold_messages json_loads messages (aggregate w).
Proof.
  revert w. induction messages as [|m rest IH]; intros w; simpl.
  - reflexivity.
  - unfold bind. pose proof (process_message_aggregate m w) as Hm.
    destruct (process_message json_loads mpl_raises m w) as [[[]|e|] w1];
      simpl in *; try discriminate.
    intros H. rewrite <- Hm. now apply IH.
Qed.

(** C6. The fold is commutative over valid records. For a sequence of
    lines that all decode to JSON objects, processing them in file order
    and processing them in any other order (both runs going through all of
    them) leave aggregates with the same count for every author and the
    same total. *)
Theorem fold_is_commutative (l l' : list str) (w : world) :
  Forall (valid_record json_loads) l ->
  Permutation l l' ->
  fst (process_all' l w) = Normal tt ->
  fst (process_all' l' w) = Normal tt ->
  let a := aggregate (snd (process_all' l w)) in
  let a' := aggregate (snd (process_all' l' w)) in
  (forall h, count_of h (fst a) = count_of h (fst a')) /\ snd a = snd a'.
Proof.
  intros _ Hp H H'. cbv zeta.
  rewrite (process_all_aggregate l w H), (process_all_aggregate l' w H').
  exact (fold_messages_permutation json_loads l l' Hp (aggregate w)).
Qed.

Lemma process_all_returns (messages : list str) (w : world) :
  loads_raises_errors json_loads ->
  backend_raises_errors mpl_raises ->
  fst (process_all' messages w) = Normal tt.
Proof.
  intros HL HB. revert w. induction messages as [|m rest IH]; intros w; simpl.
  - reflexivity.
  - unfold bind. pose proof (process_message_returns m w HL HB) as Hm.
    destruct (process_message json_loads mpl_raises m w) as [r w1].
    simpl in Hm. subst r. apply IH.
Qed.

Lemma loop_body_returns (s : str) (file : text_file) (w : world) :
  loads_raises_errors json_loads ->
  backend_raises_errors mpl_raises ->
  exists w', loop_body' (Appended s) file w
             = (Normal (snd (readline (append s file))), w').
Proof.
  intros HL HB. unfold loop_body, bind, file_readline, ret.
  destruct (readline (append s file)) as [line file'].
  destruct (truthy (strip line)).
  - pose proof (process_message_returns line w HL HB) as Hm.
    destruct (process_message json_loads mpl_raises line w) as [r w1].
    simpl in Hm. subst r. eauto.
  - simpl. eauto.
Qed.




End Properties.

(* ================================================================== *)
(** ** What a read returns of a line that is still being written *)

(** C2, as the code has it. A read returns the unread text up to and
    including the first line end, or all of it when no line end has been
    written yet. So when the reader has caught up and the producer writes
    the start [p] of a line without its end, the next read returns [p] and
    consumes it; when the rest [q] and the line end are written later, the
    read after that returns [q] and the line end only. Put together the two
    pieces are the line, no character twice and none lost. A line whose end
    is in the file when the read reaches it is returned whole, once. *)
Theorem readline_returns_what_is_written (f : text_file) (p q l rest : str) :
  pos f = List.length (content f) ->
  no_newline p -> no_newline q -> no_newline l ->
  let (l1, f1) := readline (append p f) in
  let (l2, f2) := readline (append (q ++ [NL]) f1) in
  let g := append (l ++ NL :: rest) f in
  (l1 = p /\ unread f1 = []) /\
  (l2 = q ++ [NL] /\ unread f2 = []) /\
  l1 ++ l2 = p ++ q ++ [NL] /\
  (fst (readline g) = l ++ [NL] /\ unread (snd (readline g)) = rest).
Proof.
  intros Hpos Hp Hq Hl.
  assert (Hu : forall s, unread (append s f) = s).
  { intros s. rewrite unread_append by lia. unfold unread.
    rewrite Hpos, skipn_all. reflexivity. }
  destruct (readline (append p f)) as [l1 f1] eqn:E1.
  assert (H1 : l1 = p /\ unread f1 = [] /\ pos f1 = List.length (content f1)).
  { unfold readline in E1. rewrite Hu, (take_line_no_newline p Hp) in E1.
    inversion E1; subst. unfold unread, append. simpl.
    rewrite Hpos, <- length_app. rewrite skipn_all. auto. }
  destruct H1 as (-> & Hu1 & Hpos1).
  assert (Hu' : forall s, unread (append s f1) = s).
  { intros s. rewrite unread_append by lia. now rewrite Hu1. }
  destruct (readline (append (q ++ [NL]) f1)) as [l2 f2] eqn:E2.
  assert (H2 : l2 = q ++ [NL] /\ unread f2 = []).
  { unfold readline in E2. rewrite Hu' in E2.
    rewrite (take_line_terminated q [] Hq) in E2.
    inversion E2; subst. unfold unread, append. simpl.
    rewrite Hpos1, <- length_app. rewrite skipn_all. auto. }
  destruct H2 as (-> & Hu2).
  assert (Hg : fst (readline (append (l ++ NL :: rest) f)) = l ++ [NL]).
  { unfold readline. simpl. rewrite Hu. apply take_line_terminated, Hl. }
  repeat split; auto.
  pose proof (readline_unread (append (l ++ NL :: rest) f)) as [H _].
  rewrite Hu, Hg, <- app_assoc in H. simpl in H.
  apply app_inv_head in H. injection H as H. symmetry. exact H.
Qed.

(* ================================================================== *)
(** ** Concrete runs

    The runs below use the reference decoder and a backend that never
    raises (or always does). *)

Lemma loads_raises_only_errors : loads_raises_errors Json.loads.
Proof.
  intros message e. unfold Json.loads.
  destruct (Json.decode message) as [v|f]; [discriminate|].
  intros [= <-]. destruct f; reflexivity.
Qed.


Lemma failing_backend_raises_errors : backend_raises_errors failing_backend.
Proof. intros c w e [= <-]. reflexivity. Qed.

Lemma no_newline_check (s : str) :
  forallb (fun c => negb (N.eqb c NL)) s = true -> no_newline s.
Proof.
  unfold no_newline. rewrite forallb_forall. intros H Hin.
  specialize (H NL Hin). rewrite N.eqb_refl in H. discriminate.
Qed.

(** The scenario of the specification: the file starts empty; one record
    for alice is appended and read; then a malformed line and a record for
    bob are appended together and read by the next two passes. *)
Example end_to_end_scenario :
  let (r, w) :=
    main Json.loads quiet_backend (file_with [])
         [Appended (line "{'author':'alice'}");
          Appended (line "not json" ++ line "{'author':'bob'}");
          Appended []]
         initial_world in
  r = Blocked /\
  total_messages w = 2 /\
  author_counts w = [(PStr (py "alice"), 1); (PStr (py "bob"), 1)] /\
  List.filter (fun x => match x with Log r => is_error_record r | _ => false end)
              (trace w)
  = [Log (ERROR_invalid_json (line "not json"))].
Proof. vm_compute. repeat split. Qed.

(** Keys are compared as Python compares them: [1], [1.0] and [true] are
    one author, and the key stored first is kept. *)
Example numeric_authors_share_a_count :
  author_counts
    (snd (process_all Json.loads quiet_backend
            [jq "{'author': 1}"; jq "{'author': 1.0}"; jq "{'author': true}"]
            initial_world))
  = [(PInt 1, 3)].
Proof. vm_compute. reflexivity. Qed.

(** *** C7 *)

Lemma missing_author_witness :
  let message := jq "{'x':1}" in
  let d := [(py "x", PInt 1)] in
  Json.loads message = Returned (PDict d) /\
  items_get d (py "author") = None /\
  (let w' := snd (process_message Json.loads quiet_backend message initial_world) in
   count_of Unknown (author_counts w')
     = Some (count_or_0 Unknown (author_counts initial_world) + 1) /\
   total_messages w' = total_messages initial_world + 1 /\
   forall h, h <> Unknown ->
             count_of h (author_counts w') = count_of h (author_counts initial_world)).
Proof.
  intros message d.
  assert (H1 : Json.loads message = Returned (PDict d)) by (vm_compute; reflexivity).
  assert (H2 : items_get d (py "author") = None) by reflexivity.
  exact (conj H1 (conj H2
    (missing_author_counts_as_Unknown Json.loads quiet_backend message d
       initial_world H1 H2))).
Defined.

(** *** C3 *)

(** A record whose author is the number 5 is not rejected: it is counted,
    under the key [5], and no error is logged. *)
Lemma number_author_is_counted :
  let message := jq "{'author': 5}" in
  Json.loads message = Returned (PDict [(py "author", PInt 5)]) /\
  process_message Json.loads quiet_backend message initial_world
  = (Normal tt,
     {| author_counts := [(PInt 5, 1)];
        total_messages := 1;
        trace := [Log (INFO_totals 1 [(PInt 5, 1)]); Ax_clear;
                  Draw [PInt 5] [1] 3] |}) /\
  aggregate (snd (process_message Json.loads quiet_backend message initial_world))
  <> aggregate initial_world.
Proof.
  repeat split; try (vm_compute; reflexivity).
  vm_compute. discriminate.
Qed.

Lemma non_string_author_witness :
  let message := jq "{'author': 5}" in
  let d := [(py "author", PInt 5)] in
  Json.loads message = Returned (PDict d) /\
  items_get d (py "author") = Some (PInt 5) /\
  is_str (PInt 5) = false /\
  (let w := initial_world in
   let w' := snd (process_message Json.loads quiet_backend message w) in
   count_of Unknown (author_counts w') = count_of Unknown (author_counts w) /\
   match key_of (PInt 5) with
   | Some h =>
       count_of h (author_counts w') = Some (count_or_0 h (author_counts w) + 1) /\
       total_messages w' = total_messages w + 1 /\
       forall h', h' <> h ->
                  count_of h' (author_counts w') = count_of h' (author_counts w)
   | None =>
       process_message Json.loads quiet_backend message w
       = (Normal tt, log_of w (ERROR_processing TypeError))
   end).
Proof.
  intros message d.
  assert (H1 : Json.loads message = Returned (PDict d)) by (vm_compute; reflexivity).
  assert (H2 : items_get d (py "author") = Some (PInt 5)) by reflexivity.
  exact (conj H1 (conj H2 (conj eq_refl
    (non_string_author Json.loads quiet_backend message d (PInt 5)
       initial_world H1 H2 eq_refl)))).
Defined.

(** *** C8 *)

Lemma non_object_witness :
  let message := jq "[1, 2]" in
  let v := PList [PInt 1; PInt 2] in
  Json.loads message = Returned v /\
  isinstance_dict v = false /\
  (let (r, w') := process_message Json.loads quiet_backend message initial_world in
   r = Normal tt /\
   author_counts w' = author_counts initial_world /\
   total_messages w' = total_messages initial_world /\
   trace w' = trace initial_world ++ [Log (ERROR_not_dict v)] /\
   is_error_record (ERROR_not_dict v) = true).
Proof.
  intros message v.
  assert (H1 : Json.loads message = Returned v) by (vm_compute; reflexivity).
  exact (conj H1 (conj eq_refl
    (non_object_is_rejected Json.loads quiet_backend message v initial_world
       H1 eq_refl))).
Defined.

(** *** C4 *)

(** A blank line is not valid JSON either, and nothing is logged for it:
    the pass only sleeps. *)
Lemma blank_line_is_not_logged :
  let message := py "   " ++ [NL] in
  let file := seek_end {| content := []; pos := 0 |} in
  Json.loads message = Raised JSONDecodeError /\
  (let (r, w') := loop_body Json.loads quiet_backend (Appended message) file
                            initial_world in
   r = Normal {| content := message; pos := 4 |} /\
   trace w' = [Sleep] /\
   forall record, ~ In (Log record) (trace w')).
Proof.
  split; [vm_compute; reflexivity|].
  vm_compute. repeat split. intros record [H|[]]. discriminate.
Qed.

Lemma invalid_json_witness :
  let message := line "not json" in
  let file := seek_end {| content := line "{'author':'alice'}"; pos := 0 |} in
  let file' := {| content := line "{'author':'alice'}" ++ message; pos := 28 |} in
  let w := initial_world in
  Json.loads message = Raised JSONDecodeError /\
  readline (append message file) = (message, file') /\
  (let logged := log_of w (ERROR_invalid_json message) in
   let slept := {| author_counts := author_counts w;
                   total_messages := total_messages w;
                   trace := trace w ++ [Sleep] |} in
   let w' := if truthy (strip message) then logged else slept in
   process_message Json.loads quiet_backend message w = (Normal tt, logged) /\
   author_counts w' = author_counts w /\
   total_messages w' = total_messages w /\
   loop_body Json.loads quiet_backend (Appended message) file w = (Normal file', w') /\
   unread (append message file) = message ++ unread file' /\
   pos file' = (pos file + List.length message)%nat /\
   (truthy (strip message) = true -> (0 < List.length message)%nat) /\
   @while_true text_file unit (loop_body Json.loads quiet_backend)
               (Appended message :: [Appended []]) file w
   = while_true (loop_body Json.loads quiet_backend) [Appended []] file' w').
Proof.
  intros message file file' w.
  assert (H1 : Json.loads message = Raised JSONDecodeError) by (vm_compute; reflexivity).
  assert (H2 : readline (append message file) = (message, file'))
    by (vm_compute; reflexivity).
  exact (conj H1 (conj H2
    (invalid_json_is_skipped Json.loads quiet_backend message w message file file'
       [Appended []] H1 H2))).
Defined.

(** *** C9 *)

Lemma blank_line_witness :
  let s := py "  " ++ [NL] in
  let file := seek_end {| content := line "{'author':'alice'}"; pos := 0 |} in
  let file' := {| content := line "{'author':'alice'}" ++ s; pos := 22 |} in
  let w := initial_world in
  readline (append s file) = (s, file') /\
  Forall (fun c => is_space c = true) s /\
  loop_body Json.loads failing_backend (Appended s) file w =
  (Normal file', {| author_counts := author_counts w;
                    total_messages := total_messages w;
                    trace := trace w ++ [Sleep] |}).
Proof.
  intros s file file' w.
  assert (H1 : readline (append s file) = (s, file')) by (vm_compute; reflexivity).
  assert (H2 : Forall (fun c => is_space c = true) s) by (repeat constructor).
  exact (conj H1 (conj H2
    (blank_line_is_not_processed Json.loads failing_backend s file file' s w H1 H2))).
Defined.

(** *** C10 *)

Lemma contained_errors_witness :
  let message := jq "{'author': 'alice'}" in
  let w := initial_world in
  loads_raises_errors Json.loads /\
  backend_raises_errors failing_backend /\
  exists w' pre x,
    process_message Json.loads failing_backend message w = (Normal tt, w') /\
    trace w' = trace w ++ pre ++ [x] /\
    closes_message x = true /\
    (forall e, Json.loads message = Raised e ->
       pre = [] /\
       x = Log (if is_JSONDecodeError e then ERROR_invalid_json message
                else ERROR_processing e)) /\
    (forall d, Json.loads message = Returned (PDict d) ->
       key_of (author_of d) = None ->
       pre = [] /\ x = Log (ERROR_processing TypeError)) /\
    (forall d h, Json.loads message = Returned (PDict d) ->
       key_of (author_of d) = Some h ->
       match update_chart failing_backend (counted h (author_of d) w) with
       | (Raise e, w1) =>
           let record := if is_JSONDecodeError e then ERROR_invalid_json message
                         else ERROR_processing e in
           is_error_record record = true /\
           x = Log record /\
           w' = log_of w1 record
       | (_, w1) =>
           w' = w1 /\ exists authors counts ylim,
                        x = Draw authors counts ylim \/ x = Ax_clear
       end).
Proof.
  intros message w.
  exact (conj loads_raises_only_errors (conj failing_backend_raises_errors
    (process_message_contains_errors Json.loads failing_backend message w
       loads_raises_only_errors failing_backend_raises_errors))).
Defined.

(** The chart failing on every call does not stop the count. *)
Example failing_chart_is_logged :
  process_message Json.loads failing_backend (jq "{'author': 'alice'}") initial_world
  = (Normal tt,
     {| author_counts := [(PStr (py "alice"), 1)];
        total_messages := 1;
        trace := [Log (INFO_totals 1 [(PStr (py "alice"), 1)]); Ax_clear;
                  Log (ERROR_processing OSError)] |}).
Proof. vm_compute. reflexivity. Qed.

(** An interrupt during [plt.pause] is not an error: it leaves
    [process_message], and [main] ends the run on it. *)
Example interrupt_passes_through :
  fst (process_message Json.loads interrupted_backend (jq "{'author': 'alice'}")
                       initial_world)
  = Raise KeyboardInterrupt /\
  fst (run_script Json.loads interrupted_backend (file_with [])
                  [Appended (line "{'author': 'alice'}")])
  = Some 0.
Proof. split; vm_compute; reflexivity. Qed.

(** *** C6 *)

Lemma commutative_fold_witness :
  let a := jq "{'author': 'alice'}" in
  let b := jq "{'author': 'bob', 'message': 'hi'}" in
  let c := jq "{'message': 'no author'}" in
  let l := [a; b; a; c] in
  let l' := [c; a; b; a] in
  let w := initial_world in
  Forall (valid_record Json.loads) l /\
  Permutation l l' /\
  fst (process_all Json.loads quiet_backend l w) = Normal tt /\
  fst (process_all Json.loads quiet_backend l' w) = Normal tt /\
  (let x := aggregate (snd (process_all Json.loads quiet_backend l w)) in
   let x' := aggregate (snd (process_all Json.loads quiet_backend l' w)) in
   (forall h, count_of h (fst x) = count_of h (fst x')) /\ snd x = snd x').
Proof.
  intros a b c l l' w.
  assert (H1 : Forall (valid_record Json.loads) l).
  { repeat constructor; eexists; vm_compute; reflexivity. }
  assert (H2 : Permutation l l').
  { change l' with ([c] ++ [a; b; a]). change l with ([a; b; a] ++ [c]).
    apply Permutation_app_comm. }
  assert (H3 : fst (process_all Json.loads quiet_backend l w) = Normal tt)
    by (vm_compute; reflexivity).
  assert (H4 : fst (process_all Json.loads quiet_backend l' w) = Normal tt)
    by (vm_compute; reflexivity).
  exact (conj H1 (conj H2 (conj H3 (conj H4
    (fold_is_commutative Json.loads quiet_backend l l' w H1 H2 H3 H4))))).
Defined.

(** The two orders differ in the order of the bars only. *)
Example order_shows_in_the_keys_only :
  author_counts (snd (process_all Json.loads quiet_backend
                        [jq "{'author': 'alice'}"; jq "{'author': 'bob'}"]
                        initial_world))
  = [(PStr (py "alice"), 1); (PStr (py "bob"), 1)] /\
  author_counts (snd (process_all Json.loads quiet_backend
                        [jq "{'author': 'bob'}"; jq "{'author': 'alice'}"]
                        initial_world))
  = [(PStr (py "bob"), 1); (PStr (py "alice"), 1)].
Proof. split; vm_compute; reflexivity. Qed.

(** *** C5 *)



(** *** C2 *)

(** The producer has written the start of a record, without its line end.
    The read returns it and moves the cursor past it; the message is
    processed as it is (a decoding error). When the rest arrives, the next
    read returns the rest alone (a second decoding error): the record is
    never seen whole and is not counted. *)
Lemma partial_line_is_returned :
  let f0 := seek_end {| content := []; pos := 0 |} in
  let p := jq "{'author': 'al" in
  let q := jq "ice'}" in
  let (l1, f1) := readline (append p f0) in
  let (l2, f2) := readline (append (q ++ [NL]) f1) in
  (l1 = p /\ l1 <> [] /\ no_newline l1 /\ pos f1 = 14%nat) /\
  (l2 = q ++ [NL] /\ l2 <> p ++ q ++ [NL]) /\
  (let (r, w) := main Json.loads quiet_backend (file_with [])
                      [Appended p; Appended (q ++ [NL]); Appended []]
                      initial_world in
   total_messages w = 0 /\
   List.filter (fun x => match x with Log r => is_error_record r | _ => false end)
               (trace w)
   = [Log (ERROR_invalid_json p); Log (ERROR_invalid_json (q ++ [NL]))]).
Proof.
  vm_compute. repeat split; try discriminate.
  intuition discriminate.
Qed.

Lemma readline_witness :
  let f := seek_end {| content := line "{'author': 'alice'}"; pos := 0 |} in
  let p := jq "{'author': 'al" in
  let q := jq "ice'}" in
  let l := jq "{'author': 'bob'}" in
  let rest := jq "{'x" in
  pos f = List.length (content f) /\
  no_newline p /\ no_newline q /\ no_newline l /\
  (let (l1, f1) := readline (append p f) in
   let (l2, f2) := readline (append (q ++ [NL]) f1) in
   let g := append (l ++ NL :: rest) f in
   (l1 = p /\ unread f1 = []) /\
   (l2 = q ++ [NL] /\ unread f2 = []) /\
   l1 ++ l2 = p ++ q ++ [NL] /\
   (fst (readline g) = l ++ [NL] /\ unread (snd (readline g)) = rest)).
Proof.
  intros f p q l rest.
  assert (Hp : no_newline p) by (apply no_newline_check; reflexivity).
  assert (Hq : no_newline q) by (apply no_newline_check; reflexivity).
  assert (Hl : no_newline l) by (apply no_newline_check; reflexivity).
  exact (conj eq_refl (conj Hp (conj Hq (conj Hl
    (readline_returns_what_is_written f p q l rest eq_refl Hp Hq Hl))))).
Defined.

(* ================================================================== *)
(** ** More on the dictionary of counts *)

Lemma count_of_None_iff (h : hkey) (d : list (pyval * Z)) :
  count_of h d = None <-> Forall (fun kv => key_of (fst kv) <> Some h) d.
Proof.
  induction d as [|[k n] r IH]; simpl.
  - split; auto.
  - destruct (same_key h k) eqn:E.
    + split; [discriminate|]. intros H. inversion H; subst. simpl in *.
      apply same_key_iff in E. contradiction.
    + rewrite IH. split.
      * intros H. constructor; auto. simpl. intros Hk.
        apply same_key_iff in Hk. congruence.
      * intros H. now inversion H.
Qed.

Lemma setitem_present (h : hkey) (k : pyval) (n n0 : Z) (d : list (pyval * Z)) :
  count_of h d = Some n0 -> keys (setitem h k n d) = keys d.
Proof.
  unfold keys. induction d as [|[k' n'] r IH]; simpl; [discriminate|].
  destruct (same_key h k'); simpl; [reflexivity|].
  intros H. now rewrite IH.
Qed.

Lemma setitem_absent (h : hkey) (k : pyval) (n : Z) (d : list (pyval * Z)) :
  count_of h d = None -> setitem h k n d = d ++ [(k, n)].
Proof.
  induction d as [|[k' n'] r IH]; simpl; [reflexivity|].
  destruct (same_key h k'); [discriminate|]. intros H. now rewrite IH.
Qed.

Lemma setitem_last (h : hkey) (k k' : pyval) (n m : Z) (d : list (pyval * Z)) :
  count_of h d = None -> key_of k = Some h ->
  setitem h k' n (d ++ [(k, m)]) = d ++ [(k, n)].
Proof.
  intros Hd Hk. induction d as [|[k0 n0] r IH]; simpl in *.
  - apply same_key_iff in Hk. now rewrite Hk.
  - destruct (same_key h k0); [discriminate|]. now rewrite IH.
Qed.

(** [d[k] += 1] updates the count of a key that is there, in place. *)
Lemma incr_present (h : hkey) (k : pyval) (n : Z) (d : list (pyval * Z)) :
  count_of h d = Some n -> incr h k d = setitem h k (n + 1) d.
Proof. intros H. unfold incr, getitem_default. now rewrite H. Qed.

(** [d[k] += 1] appends a key that is not there, with count 1. *)
Lemma incr_absent (h : hkey) (k : pyval) (d : list (pyval * Z)) :
  key_of k = Some h -> count_of h d = None -> incr h k d = d ++ [(k, 1)].
Proof.
  intros Hk H. unfold incr, getitem_default. rewrite H.
  rewrite (setitem_absent h k 0 d H). now apply setitem_last.
Qed.

Lemma setitem_values (h : hkey) (k : pyval) (n n0 : Z) (d : list (pyval * Z))
      (Q : pyval -> Prop) :
  count_of h d = Some n0 ->
  Forall (fun kv => Q (fst kv) /\ 1 <= snd kv) d ->
  1 <= n ->
  Forall (fun kv => Q (fst kv) /\ 1 <= snd kv) (setitem h k n d).
Proof.
  intros Hc Hd Hn. induction d as [|[k' n'] r IH]; simpl in *; [discriminate|].
  inversion Hd as [|? ? [Hq Hv] Hr]; subst. simpl in *.
  destruct (same_key h k').
  - constructor; auto.
  - constructor; auto.
Qed.

Lemma count_of_value (h : hkey) (n : Z) (d : list (pyval * Z)) (Q : pyval -> Prop) :
  count_of h d = Some n ->
  Forall (fun kv => Q (fst kv) /\ 1 <= snd kv) d -> 1 <= n.
Proof.
  intros Hc Hd. induction d as [|[k' n'] r IH]; simpl in *; [discriminate|].
  inversion Hd as [|? ? [Hq Hv] Hr]; subst. simpl in *.
  destruct (same_key h k'); [now inversion Hc; subst | auto].
Qed.

Lemma well_formed_incr (h : hkey) (k : pyval) (d : list (pyval * Z)) (t : Z) :
  key_of k = Some h -> well_formed (d, t) -> well_formed (incr h k d, t + 1).
Proof.
  intros Hk (Hnd & Hall & Ht). unfold well_formed. simpl in *.
  destruct (count_of h d) as [n|] eqn:Hc.
  - rewrite (incr_present h k n d Hc).
    pose proof (count_of_value h n d (fun k => key_of k <> None) Hc Hall) as Hn.
    repeat split;
      [| apply (setitem_values h k (n + 1) n d (fun k => key_of k <> None) Hc Hall);
         lia | lia].
    replace (List.map (fun kv => key_of (fst kv)) (setitem h k (n + 1) d))
      with (List.map key_of (keys (setitem h k (n + 1) d)))
      by (unfold keys; now rewrite map_map).
    rewrite (setitem_present h k (n + 1) n d Hc).
    unfold keys. now rewrite map_map.
  - rewrite (incr_absent h k d Hk Hc).
    repeat split; [| | lia].
    + rewrite map_app. simpl.
      apply NoDup_app; [exact Hnd | repeat constructor; auto |].
      intros x Hx [<-|[]]. rewrite Hk in Hx.
      apply count_of_None_iff in Hc. rewrite Forall_forall in Hc.
      apply in_map_iff in Hx. destruct Hx as (kv & Hkv & Hin).
      now apply (Hc kv Hin).
    + apply Forall_app. split; [exact Hall|].
      constructor; [|constructor]. simpl. split; [congruence | lia].
Qed.

Lemma well_formed_fold_message (json_loads : str -> outcome pyval) (message : str) a :
  well_formed a -> well_formed (fold_message json_loads message a).
Proof.
  intros H. unfold fold_message.
  destruct (json_loads message) as [[| | | | | |d]|]; auto.
  destruct (key_of (author_of d)) as [h|] eqn:Hk; auto.
  destruct a as [c t]. now apply well_formed_incr.
Qed.

(* ================================================================== *)
(** ** Properties of the aggregate that hold along every run *)

Lemma keeps_ret {A} (I : world -> Prop) (a : A) : keeps I (ret a).
Proof. intros w H. exact H. Qed.

Lemma keeps_raise {A} (I : world -> Prop) (e : exn) : keeps I (@raise A e).
Proof. intros w H. exact H. Qed.

Lemma keeps_blocked {A} (I : world -> Prop) : keeps I (@blocked A).
Proof. intros w H. exact H. Qed.

Lemma keeps_lift {A} (I : world -> Prop) (r : outcome A) : keeps I (lift r).
Proof. intros w H. destruct r; exact H. Qed.

Lemma keeps_bind {A B} (I : world -> Prop) (m : M A) (k : A -> M B) :
  keeps I m -> (forall a, keeps I (k a)) -> keeps I (bind m k).
Proof.
  intros Hm Hk w H. unfold bind. specialize (Hm w H).
  destruct (m w) as [[a|e|] w']; simpl in *; auto. now apply Hk.
Qed.

Lemma keeps_try_except {A} (I : world -> Prop) (body : M A)
      (handler : exn -> option (M A)) :
  keeps I body ->
  (forall e h, handler e = Some h -> keeps I h) ->
  keeps I (try_except body handler).
Proof.
  intros Hb Hh w H. unfold try_except. specialize (Hb w H).
  destruct (body w) as [[a|e|] w']; simpl in *; auto.
  destruct (handler e) as [h|] eqn:E; simpl; auto. now apply (Hh e h E).
Qed.

Lemma keeps_try_finally {A} (I : world -> Prop) (body : M A) (cleanup : M unit) :
  keeps I body -> keeps I cleanup -> keeps I (try_finally body cleanup).
Proof.
  intros Hb Hc w H. unfold try_finally. specialize (Hb w H).
  destruct (body w) as [[a|e|] w']; simpl in *; auto;
    specialize (Hc w' Hb); destruct (cleanup w') as [[u|e'|] w'']; simpl in *; auto.
Qed.

Lemma keeps_while_true {S A} (I : world -> Prop) (body : event -> S -> M S)
      (events : list event) :
  (forall ev s, keeps I (body ev s)) ->
  forall s, keeps I (@while_true S A body events s).
Proof.
  intros Hb. induction events as [|ev rest IH]; intros s; simpl.
  - apply keeps_blocked.
  - apply keeps_bind; auto.
Qed.

(** Writing a log record, drawing or sleeping does not touch the
    aggregate. *)
Lemma keeps_emit (P : list (pyval * Z) * Z -> Prop) (x : effect) :
  keeps (fun w => P (aggregate w)) (emit x).
Proof. intros w H. exact H. Qed.

Section Runs.

Variable json_loads : str -> outcome pyval.
Variable mpl_raises : mpl_call -> world -> option exn.

Local Abbreviation update_chart' := (update_chart mpl_raises).
Local Abbreviation process_message' := (process_message json_loads mpl_raises).
Local Abbreviation process_all' := (process_all json_loads mpl_raises).
Local Abbreviation loop_body' := (loop_body json_loads mpl_raises).
Local Abbreviation main' := (main json_loads mpl_raises).
Local Abbreviation run_script' := (run_script json_loads mpl_raises).

(** A property of the aggregate that every message keeps. *)
Variable P : list (pyval * Z) * Z -> Prop.
Hypothesis P_fold : forall message a, P a -> P (fold_message json_loads message a).

Lemma keeps_process_message (message : str) :
  keeps (fun w => P (aggregate w)) (process_message' message).
Proof.
  intros w H. rewrite process_message_aggregate. now apply P_fold.
Qed.

Lemma keeps_process_all (messages : list str) :
  keeps (fun w => P (aggregate w)) (process_all' messages).
Proof.
  induction messages as [|m rest IH]; simpl.
  - apply keeps_ret.
  - apply keeps_bind; [apply keeps_process_message | auto].
Qed.

Lemma keeps_loop_body (ev : event) (file : text_file) :
  keeps (fun w => P (aggregate w)) (loop_body' ev file).
Proof.
  unfold loop_body. apply keeps_bind.
  - destruct ev; simpl; [apply keeps_ret | apply keeps_raise].
  - intros [line file']. apply keeps_bind; [|intros; apply keeps_ret].
    destruct (truthy (strip line)).
    + apply keeps_process_message.
    + apply keeps_emit.
Qed.

Lemma keeps_main (s : startup) (events : list event) :
  keeps (fun w => P (aggregate w)) (main' s events).
Proof.
  unfold main, main_try, open_data_file, logger_info, logger_error.
  apply keeps_bind; [apply keeps_emit|]. intros _.
  apply keeps_bind.
  { destruct (negb (file_exists s)); [|apply keeps_ret].
    apply keeps_bind; [apply keeps_emit | intros; apply keeps_raise]. }
  intros _. apply keeps_try_finally.
  - apply keeps_try_except.
    + apply keeps_bind.
      { apply keeps_bind; [apply keeps_lift | intros; apply keeps_ret]. }
      intros f. apply keeps_bind; [apply keeps_emit|]. intros _.
      apply keeps_while_true. apply keeps_loop_body.
    + intros e h. destruct (is_KeyboardInterrupt e); [|destruct (is_Exception e)];
        intros [= <-]; apply keeps_emit.
  - apply keeps_bind; [apply keeps_emit|]. intros _. apply keeps_emit.
Qed.

End Runs.

Section More.

Variable json_loads : str -> outcome pyval.
Variable mpl_raises : mpl_call -> world -> option exn.

Local Abbreviation update_chart' := (update_chart mpl_raises).
Local Abbreviation process_message' := (process_message json_loads mpl_raises).
Local Abbreviation process_all' := (process_all json_loads mpl_raises).
Local Abbreviation loop_body' := (loop_body json_loads mpl_raises).
Local Abbreviation main_try' := (main_try json_loads mpl_raises).
Local Abbreviation main' := (main json_loads mpl_raises).
Local Abbreviation run_script' := (run_script json_loads mpl_raises).

(** X1. In every state the script can reach, [author_counts] is a proper
    tally: no author is stored twice (keys compared as Python compares
    them), every key is hashable, every stored count is at least 1, and
    [total_messages] is not negative. *)
Theorem reachable_counts_are_well_formed (messages : list str) (s : startup)
        (events : list event) :
  well_formed (aggregate (snd (process_all' messages initial_world))) /\
  well_formed (aggregate (snd (main' s events initial_world))).
Proof.
  assert (H0 : well_formed (aggregate initial_world)).
  { repeat split; simpl; try constructor. lia. }
  split.
  - exact (keeps_process_all json_loads mpl_raises well_formed
             (well_formed_fold_message json_loads) messages initial_world H0).
  - exact (keeps_main json_loads mpl_raises well_formed
             (well_formed_fold_message json_loads) s events initial_world H0).
Qed.

Lemma grows_fold_message (h : hkey) (n t : Z) (message : str) a :
  (exists n', count_of h (fst a) = Some n' /\ n <= n') /\ t <= snd a ->
  (exists n', count_of h (fst (fold_message json_loads message a)) = Some n'
              /\ n <= n') /\
  t <= snd (fold_message json_loads message a).
Proof.
  intros [(n' & Hn' & Hle) Ht]. unfold fold_message.
  destruct (json_loads message) as [[| | | | | |d]|]; eauto.
  destruct (key_of (author_of d)) as [h'|] eqn:Hk; eauto.
  simpl. split; [|lia].
  destruct (count_of_incr_grows h' (author_of d) (fst a) h n' Hk Hn')
    as (n'' & H1 & H2).
  exists n''. split; [exact H1 | lia].
Qed.

(** X2. Counts only grow. Along any run of [main] (and any sequence of
    processed messages), from any state: an author that has a count keeps
    one, at least as large, and [total_messages] does not decrease. No
    author is ever removed. *)
Theorem counts_never_decrease (messages : list str) (s : startup)
        (events : list event) (w : world) (h : hkey) (n : Z) :
  count_of h (author_counts w) = Some n ->
  let w1 := snd (process_all' messages w) in
  let w2 := snd (main' s events w) in
  ((exists n', count_of h (author_counts w1) = Some n' /\ n <= n') /\
   total_messages w <= total_messages w1) /\
  ((exists n', count_of h (author_counts w2) = Some n' /\ n <= n') /\
   total_messages w <= total_messages w2).
Proof.
  intros Hn.
  set (P := fun a : list (pyval * Z) * Z =>
              (exists n', count_of h (fst a) = Some n' /\ n <= n') /\
              total_messages w <= snd a).
  assert (H0 : P (aggregate w)).
  { split; simpl; [exists n; split; [exact Hn | lia] | lia]. }
  assert (HP : forall message a, P a -> P (fold_message json_loads message a)).
  { intros message a. apply grows_fold_message. }
  split.
  - exact (keeps_process_all json_loads mpl_raises P HP messages w H0).
  - exact (keeps_main json_loads mpl_raises P HP s events w H0).
Qed.

Lemma fold_messages_tally (h : hkey) (messages : list str) a :
  count_or_0 h (fst (fold_messages json_loads messages a))
  = count_or_0 h (fst a) + tally json_loads h messages /\
  snd (fold_messages json_loads messages a)
  = snd a + counted_messages json_loads messages.
Proof.
  revert a. induction messages as [|m rest IH]; intros a.
  - unfold tally, counted_messages. simpl. split; lia.
  - simpl. destruct (IH (fold_message json_loads m a)) as [IH1 IH2].
    rewrite IH1, IH2. unfold tally, counted_messages, fold_message, counted_key.
    simpl List.filter.
    destruct (json_loads m) as [[| | | | | |d]|]; try (split; lia).
    destruct (key_of (author_of d)) as [h'|] eqn:Hk; [|split; lia].
    cbn [fst snd]. rewrite (count_or_0_incr h' _ _ h Hk).
    destruct (hkey_eqb h h') eqn:E.
    + apply hkey_eqb_eq in E. subst h'.
      cbn [List.length]. rewrite !Nat2Z.inj_succ. split; lia.
    + cbn [List.length]. rewrite !Nat2Z.inj_succ. split; lia.
Qed.

(** X3. The tally is exact. After a sequence of messages has been
    processed, each author's count has grown by the number of messages
    counted under that author, and [total_messages] by the number of
    messages counted at all (those that decode to an object with a hashable
    author); every other message has left the aggregate alone. *)
Theorem tally_is_exact (messages : list str) (w : world) (h : hkey) :
  fst (process_all' messages w) = Normal tt ->
  let w' := snd (process_all' messages w) in
  count_or_0 h (author_counts w')
  = count_or_0 h (author_counts w) + tally json_loads h messages /\
  total_messages w'
  = total_messages w + counted_messages json_loads messages.
Proof.
  intros H. pose proof (process_all_aggregate json_loads mpl_raises messages w H) as Ha.
  pose proof (fold_messages_tally h messages (aggregate w)) as [H1 H2].
  rewrite <- Ha in H1, H2. exact (conj H1 H2).
Qed.

(** X4. Authors are kept in the order they were first seen. A record for an
    author that has a count leaves the keys as they are; a record for a new
    author appends that author after all the others. *)
Theorem new_author_is_appended (message : str) (d : list (str * pyval))
        (h : hkey) (w : world) :
  json_loads message = Returned (PDict d) ->
  key_of (author_of d) = Some h ->
  keys (author_counts (snd (process_message' message w)))
  = match count_of h (author_counts w) with
    | Some _ => keys (author_counts w)
    | None => keys (author_counts w) ++ [author_of d]
    end.
Proof.
  intros Hl Hk.
  pose proof (f_equal fst (process_message_aggregate json_loads mpl_raises message w))
    as Ha.
  unfold fold_message in Ha. rewrite Hl, Hk in Ha. cbn [aggregate fst] in Ha.
  rewrite Ha. destruct (count_of h (author_counts w)) as [n|] eqn:Hc.
  - rewrite (incr_present h _ n _ Hc). now apply setitem_present with (n0 := n).
  - rewrite (incr_absent h _ _ Hk Hc). unfold keys. now rewrite map_app.
Qed.

(** X5. Only the author of a record matters. Two records whose authors are
    the same key (equal as Python compares them, both absent included)
    change the aggregate in the same way, whatever else they hold: the same
    count for every author and the same total afterwards. *)
Theorem only_the_author_matters (m1 m2 : str) (d1 d2 : list (str * pyval))
        (w : world) :
  json_loads m1 = Returned (PDict d1) ->
  json_loads m2 = Returned (PDict d2) ->
  key_of (author_of d1) = key_of (author_of d2) ->
  let a1 := aggregate (snd (process_message' m1 w)) in
  let a2 := aggregate (snd (process_message' m2 w)) in
  (forall h, count_of h (fst a1) = count_of h (fst a2)) /\ snd a1 = snd a2.
Proof.
  intros H1 H2 Hk. cbv zeta. rewrite !process_message_aggregate.
  unfold fold_message. rewrite H1, H2, <- Hk.
  destruct (key_of (author_of d1)) as [h|] eqn:E; [|split; reflexivity].
  cbn [fst snd aggregate]. split; [|reflexivity].
  intros h'. symmetry in Hk. now rewrite !count_of_incr.
Qed.

(** X6. No message is dropped silently. Unless the decoder is interrupted,
    [process_message] always writes to the log: for a counted record, the
    totals as they are after the update; for any other message, exactly one
    error record and nothing else. *)
Theorem every_message_is_logged (message : str) (w : world) :
  (forall e, json_loads message = Raised e -> is_Exception e = true) ->
  let w' := snd (process_message' message w) in
  exists added,
    trace w' = trace w ++ added /\
    match counted_key json_loads message with
    | Some _ => In (Log (INFO_totals (total_messages w') (author_counts w'))) added
    | None => exists r, added = [Log r] /\ is_error_record r = true
    end.
Proof.
  intros HE. unfold counted_key.
  destruct (json_loads message) as [v|e] eqn:Hl.
  - destruct (isinstance_dict v) eqn:Hv.
    + destruct v as [| | | | | |d]; try discriminate.
      destruct (key_of (author_of d)) as [h|] eqn:Hk.
      * rewrite (process_message_counted _ _ _ _ h w Hl Hk).
        destruct (update_chart_spec mpl_raises (counted h (author_of d) w))
          as (r0 & tail & Hu & _ & _ & _).
        unfold try_except. rewrite Hu. cbn [counted author_counts total_messages trace].
        destruct r0 as [[]|e|]; cbn [snd author_counts total_messages trace].
        -- eexists. rewrite <- app_assoc. split; [reflexivity|]. now left.
        -- unfold process_message_handler.
           destruct (is_JSONDecodeError e); [|destruct (is_Exception e)];
             cbn [logger_error emit snd author_counts total_messages trace];
             eexists; rewrite <- ?app_assoc; (split; [reflexivity|]); now left.
        -- eexists. rewrite <- app_assoc. split; [reflexivity|]. now left.
      * rewrite (process_message_unhashable _ _ _ d w Hl Hk).
        eexists. split; [reflexivity|]. eexists. split; reflexivity.
    + rewrite (process_message_not_dict _ _ _ v w Hl Hv).
      eexists. split; [reflexivity|].
      destruct v; try discriminate; eexists; split; reflexivity.
  - rewrite (process_message_raised _ _ _ e w Hl). unfold process_message_handler.
    rewrite (HE e eq_refl).
    destruct (is_JSONDecodeError e);
      eexists; (split; [reflexivity|]); eexists; split; reflexivity.
Qed.

Lemma fold_left_max_spec (l : list Z) (x : Z) :
  (fold_left Z.max l x = x \/ In (fold_left Z.max l x) l) /\
  x <= fold_left Z.max l x /\
  Forall (fun c => c <= fold_left Z.max l x) l.
Proof.
  revert x. induction l as [|a r IH]; intros x; simpl.
  - repeat split; auto. lia.
  - destruct (IH (Z.max x a)) as (Hm & Hle & Hall).
    set (m := fold_left Z.max r (Z.max x a)) in *.
    repeat split.
    + destruct Hm as [Hm | Hm]; [|now right; right].
      destruct (Z.max_spec x a) as [[_ E] | [_ E]];
        [right; left; lia | left; lia].
    + lia.
    + constructor; [lia | exact Hall].
Qed.

Lemma py_max_spec (l : list Z) :
  l <> [] ->
  exists top, py_max l = Returned top /\ In top l /\ Forall (fun c => c <= top) l.
Proof.
  destruct l as [|x r]; [congruence|]. intros _. simpl.
  destruct (fold_left_max_spec r x) as ([Hm | Hm] & Hle & Hall).
  - eexists. split; [reflexivity|]. split; [left; congruence|].
    constructor; assumption.
  - eexists. split; [reflexivity|]. split; [right; assumption|].
    constructor; assumption.
Qed.

(** X7. What the chart shows. In a consistent state with at least one
    message counted, and with a backend that does not fail, [update_chart]
    clears the axes and draws one bar per author, in the order of the keys,
    with the counts as heights; the upper limit of the y axis is [top + 2]
    where [top] is the largest count (it is one of the counts and no count
    exceeds it), so the limit is above every bar. *)
Theorem chart_shows_the_counts (w : world) :
  consistent w ->
  total_messages w <> 0 ->
  (forall c w0, mpl_raises c w0 = None) ->
  exists top,
    update_chart' w =
      (Normal tt,
       {| author_counts := author_counts w;
          total_messages := total_messages w;
          trace := trace w ++ [Ax_clear;
                               Draw (keys (author_counts w))
                                    (List.map snd (author_counts w)) (top + 2)] |}) /\
    In top (List.map snd (author_counts w)) /\
    Forall (fun c => c <= top) (List.map snd (author_counts w)).
Proof.
  intros Hc Ht Hq.
  assert (Hne : List.map snd (author_counts w) <> []).
  { unfold consistent in Hc. destruct (author_counts w); simpl in *; [lia | discriminate]. }
  destruct (py_max_spec _ Hne) as (top & Hmax & Hin & Hall).
  exists top. split; [|split; [exact Hin | exact Hall]].
  unfold update_chart, bind, emit, read, ret, matplotlib, lift. cbn.
  apply Z.eqb_neq in Ht. rewrite Ht, !Hq. cbn. rewrite Hmax, Hq. cbn.
  rewrite <- app_assoc. reflexivity.
Qed.

(** X8. Redrawing never changes the tally. Whatever the backend does, fail
    or not, [update_chart] leaves [author_counts] and [total_messages] as
    they are, and it comes back (returning or raising). *)
Theorem update_chart_keeps_the_aggregate (w : world) :
  aggregate (snd (update_chart' w)) = aggregate w /\
  fst (update_chart' w) <> Blocked.
Proof.
  destruct (update_chart_spec mpl_raises w) as (r & tail & Hu & Hnb & _).
  rewrite Hu. split; [reflexivity | exact Hnb].
Qed.

Lemma is_Exception_not_interrupt (e : exn) :
  is_Exception e = true -> is_KeyboardInterrupt e = false.
Proof. destruct e; simpl; congruence. Qed.

(** X9. When the data file is missing, [main] stops before anything else
    happens: it logs the start and the error and exits with status 1. The
    events are not looked at, the aggregate is untouched, nothing is drawn,
    and the cleanup of the [finally] block does not run. *)
Theorem missing_file_stops_at_once (s : startup) (events : list event) (w : world) :
  file_exists s = false ->
  main' s events w =
  (Raise (SystemExit 1),
   {| author_counts := author_counts w;
      total_messages := total_messages w;
      trace := trace w ++ [Log INFO_start; Log ERROR_missing_file] |}).
Proof.
  intros H. unfold main, bind, logger_info, logger_error, emit, raise.
  rewrite H. cbn. rewrite <- app_assoc. reflexivity.
Qed.

(** X10. When the file exists but cannot be opened, the error of [open] is
    caught by [main]: it is logged as unexpected, the cleanup runs, and
    [main] returns normally without having read or counted anything. *)
Theorem open_error_ends_the_run (s : startup) (events : list event) (e : exn)
        (w : world) :
  file_exists s = true ->
  open_result s = Raised e ->
  is_Exception e = true ->
  main' s events w =
  (Normal tt,
   {| author_counts := author_counts w;
      total_messages := total_messages w;
      trace := trace w ++ [Log INFO_start; Log (ERROR_unexpected e);
                           Ioff_show; Log INFO_closed] |}).
Proof.
  intros Hex Hop He.
  unfold main, main_try, open_data_file, try_finally, try_except, bind,
    logger_info, logger_error, emit, lift, ret.
  rewrite Hex, Hop. cbn. rewrite (is_Exception_not_interrupt e He), He. cbn.
  rewrite <- !app_assoc. reflexivity.
Qed.


Lemma while_true_blocked (appended : list str) (file : text_file) (w : world) :
  loads_raises_errors json_loads ->
  backend_raises_errors mpl_raises ->
  exists w', @while_true text_file unit loop_body'
               (List.map Appended appended) file w = (Blocked, w').
Proof.
  intros HL HB. revert file w.
  induction appended as [|s ss IH]; intros file w; simpl.
  - unfold blocked. eauto.
  - unfold bind at 1.
    destruct (loop_body_returns json_loads mpl_raises s file w HL HB) as [w1 ->].
    apply IH.
Qed.

(** X12. The loop does not end by itself. As long as the reads succeed and
    the decoder and the backend raise errors only, [main] is still running
    after any number of passes, whatever the producer has written: it ends
    only by an interrupt or a failing read. *)
Theorem main_keeps_polling (text : str) (appended : list str) (w : world) :
  loads_raises_errors json_loads ->
  backend_raises_errors mpl_raises ->
  fst (main' (file_with text) (List.map Appended appended) w) = Blocked.
Proof.
  intros HL HB.
  destruct (while_true_blocked appended
              (seek_end {| content := text; pos := 0 |})
              (snd (emit Print_ready (snd (logger_info INFO_start w)))) HL HB)
    as [w1 Hw].
  unfold main, main_try, open_data_file, try_finally, try_except, bind,
    logger_info, emit, lift, ret in *. cbn in *.
  rewrite Hw. reflexivity.
Qed.

Lemma take_line_length (u : str) :
  (List.length (take_line u) <= List.length u)%nat.
Proof.
  induction u as [|c r IH]; simpl; [lia|].
  destruct (N.eqb c NL); simpl; lia.
Qed.

Lemma readline_in_bounds (f : text_file) :
  in_bounds f -> in_bounds (snd (readline f)).
Proof.
  unfold in_bounds, readline, unread. simpl. intros H.
  pose proof (take_line_length (skipn (pos f) (content f))) as Hl.
  rewrite length_skipn in Hl. lia.
Qed.

Lemma in_bounds_append (s : str) (f : text_file) :
  in_bounds f -> in_bounds (append s f).
Proof. unfold in_bounds, append. simpl. rewrite length_app. lia. Qed.

(** What a read returns, and what it leaves unread, depends on the unread
    text only. *)
Lemma readline_same_unread (s : str) (f g : text_file) :
  in_bounds f -> in_bounds g -> unread f = unread g ->
  fst (readline (append s f)) = fst (readline (append s g)) /\
  unread (snd (readline (append s f))) = unread (snd (readline (append s g))).
Proof.
  intros Hf Hg Hu.
  assert (Hfg : unread (append s f) = unread (append s g)).
  { now rewrite !unread_append, Hu. }
  assert (Hl : fst (readline (append s f)) = fst (readline (append s g))).
  { unfold readline. simpl. now rewrite Hfg. }
  split; [exact Hl|].
  pose proof (readline_unread (append s f)) as [H1 _].
  pose proof (readline_unread (append s g)) as [H2 _].
  rewrite Hfg, H2, Hl in H1. now apply app_inv_head in H1.
Qed.

Lemma while_true_same_unread (events : list event) (f g : text_file) (w : world) :
  in_bounds f -> in_bounds g -> unread f = unread g ->
  @while_true text_file unit loop_body' events f w
  = while_true loop_body' events g w.
Proof.
  revert f g w. induction events as [|ev rest IH]; intros f g w Hf Hg Hu; simpl.
  - reflexivity.
  - unfold bind at 1 2. destruct ev as [s|e].
    + unfold loop_body, bind, file_readline, ret.
      destruct (readline_same_unread s f g Hf Hg Hu) as [Hl Hr].
      pose proof (readline_in_bounds _ (in_bounds_append s f Hf)) as Hf1.
      pose proof (readline_in_bounds _ (in_bounds_append s g Hg)) as Hg1.
      destruct (readline (append s f)) as [l1 f1].
      destruct (readline (append s g)) as [l2 g1].
      simpl in Hl, Hr, Hf1, Hg1. subst l2.
      destruct (truthy (strip l1)).
      * destruct (process_message json_loads mpl_raises l1 w) as [[[]|e|] w1];
          try reflexivity. now apply IH.
      * simpl. now apply IH.
    + reflexivity.
Qed.

(** X13. What is in the file when the consumer starts is not replayed. The
    cursor starts at the end of the file, so a run of [main] over a file
    that already holds any text does exactly what it does over a file that
    starts empty: only what the producer appends afterwards is read. *)
Theorem existing_content_is_not_replayed (text : str) (events : list event)
        (w : world) :
  main' (file_with text) events w = main' (file_with []) events w.
Proof.
  assert (Ht : forall w0, main_try' (file_with text) events w0
                          = main_try' (file_with []) events w0).
  { intros w0. unfold main_try, open_data_file, bind, lift, ret, emit. cbn.
    apply while_true_same_unread.
    - unfold in_bounds, seek_end. simpl. lia.
    - unfold in_bounds, seek_end. simpl. lia.
    - unfold unread, seek_end. simpl. now rewrite skipn_all. }
  unfold main, try_finally, try_except, bind, logger_info, emit, ret.
  cbn [file_with file_exists negb]. rewrite Ht. reflexivity.
Qed.

Lemma loop_body_reads_a_line (f : text_file) (w : world) (body after : str) :
  in_bounds f ->
  unread f = (body ++ [NL]) ++ after ->
  no_newline body ->
  truthy (strip (body ++ [NL])) = true ->
  exists f1,
    in_bounds f1 /\ unread f1 = after /\
    loop_body' (Appended []) f w
    = bind (process_message' (body ++ [NL])) (fun _ => ret f1) w.
Proof.
  intros Hb Hu Hn Ht.
  exists (snd (readline (append [] f))).
  assert (Hu' : unread (append [] f) = body ++ NL :: after).
  { rewrite unread_append by exact Hb. rewrite app_nil_r, Hu, <- app_assoc.
    reflexivity. }
  assert (Hl : fst (readline (append [] f)) = body ++ [NL]).
  { unfold readline. simpl. rewrite Hu'. now apply take_line_terminated. }
  repeat split.
  - apply readline_in_bounds, in_bounds_append, Hb.
  - pose proof (readline_unread (append [] f)) as [H _].
    rewrite Hu', Hl, <- app_assoc in H. simpl in H. apply app_inv_head in H.
    injection H as H. symmetry. exact H.
  - unfold loop_body, bind at 1, file_readline, ret.
    destruct (readline (append [] f)) as [l f1]. simpl in Hl. subst l.
    rewrite Ht. reflexivity.
Qed.

(** X14. Complete lines are processed once each, in file order, one per
    pass of the loop. When the unread text is a sequence of complete,
    non-blank lines, that many passes (with nothing new written) do to the
    world exactly what [process_message] does on those lines in that order,
    and the loop is then still running. *)
Theorem lines_are_processed_once_in_order (lines : list str) (f : text_file)
        (w : world) :
  in_bounds f ->
  unread f = List.concat lines ->
  Forall complete_line lines ->
  Forall (fun l => truthy (strip l) = true) lines ->
  @while_true text_file unit loop_body'
              (List.repeat (Appended []) (List.length lines)) f w
  = bind (process_all' lines) (fun _ => blocked) w.
Proof.
  revert f w. induction lines as [|l rest IH]; intros f w Hb Hu Hc Ht.
  - reflexivity.
  - inversion Hc as [|? ? (body & -> & Hbody) Hc']; subst.
    inversion Ht as [|? ? Hl Ht']; subst.
    simpl in Hu.
    destruct (loop_body_reads_a_line f w body (List.concat rest) Hb Hu Hbody Hl)
      as (f1 & Hb1 & Hu1 & Hstep).
    cbn [List.length List.repeat while_true process_all].
    unfold bind at 1. rewrite Hstep. unfold bind, ret.
    destruct (process_message json_loads mpl_raises (body ++ [NL]) w)
      as [[[]|e|] w1]; try reflexivity.
    rewrite (IH f1 w1 Hb1 Hu1 Hc' Ht'). reflexivity.
Qed.

(** X15. The consumer only reads. In a pass of the loop the content of the
    file changes by what the producer appended and by nothing else, the
    cursor does not move back, and it stays inside the file. *)
Theorem cursor_only_moves_forward (s : str) (file file' : text_file)
        (w w' : world) :
  in_bounds file ->
  loop_body' (Appended s) file w = (Normal file', w') ->
  content file' = content file ++ s /\
  (pos file <= pos file')%nat /\
  in_bounds file'.
Proof.
  intros Hb H.
  assert (Hf : file' = snd (readline (append s file))).
  { unfold loop_body, bind, file_readline, ret in H.
    destruct (readline (append s file)) as [l f1].
    destruct (truthy (strip l)).
    - destruct (process_message json_loads mpl_raises l w) as [[[]|e|] w1];
        inversion H; reflexivity.
    - simpl in H. inversion H; reflexivity. }
  subst file'. repeat split.
  - unfold readline, append. simpl. lia.
  - apply readline_in_bounds, in_bounds_append, Hb.
Qed.

End More.

(* ================================================================== *)
(** ** Concrete runs of the further properties *)

(** *** X2 *)

Lemma counts_never_decrease_witness :
  let alice := jq "{'author':'alice'}" in
  let bob := jq "{'author':'bob'}" in
  let w := snd (process_all Json.loads quiet_backend [alice] initial_world) in
  let h := HStr (py "alice") in
  let s := file_with [] in
  let events := [Appended (line "{'author':'alice'}"); Fails KeyboardInterrupt] in
  count_of h (author_counts w) = Some 1 /\
  (let w1 := snd (process_all Json.loads quiet_backend [bob; alice] w) in
   let w2 := snd (main Json.loads quiet_backend s events w) in
   ((exists n', count_of h (author_counts w1) = Some n' /\ 1 <= n') /\
    total_messages w <= total_messages w1) /\
   ((exists n', count_of h (author_counts w2) = Some n' /\ 1 <= n') /\
    total_messages w <= total_messages w2)).
Proof.
  intros alice bob w h s events.
  assert (H : count_of h (author_counts w) = Some 1) by (vm_compute; reflexivity).
  exact (conj H
    (counts_never_decrease Json.loads quiet_backend [bob; alice] s events w h 1 H)).
Defined.

(** *** X3 *)

Lemma tally_is_exact_witness :
  let messages := [jq "{'author':'alice'}"; jq "{'author':'bob'}";
                   jq "{'author':'alice'}"; jq "not json"; jq "{'x':1}"] in
  let h := HStr (py "alice") in
  let w := initial_world in
  fst (process_all Json.loads quiet_backend messages w) = Normal tt /\
  tally Json.loads h messages = 2 /\
  counted_messages Json.loads messages = 4 /\
  (let w' := snd (process_all Json.loads quiet_backend messages w) in
   count_or_0 h (author_counts w')
   = count_or_0 h (author_counts w) + tally Json.loads h messages /\
   total_messages w'
   = total_messages w + counted_messages Json.loads messages).
Proof.
  intros messages h w.
  assert (H : fst (process_all Json.loads quiet_backend messages w) = Normal tt)
    by (vm_compute; reflexivity).
  assert (H1 : tally Json.loads h messages = 2) by (vm_compute; reflexivity).
  assert (H2 : counted_messages Json.loads messages = 4) by (vm_compute; reflexivity).
  exact (conj H (conj H1 (conj H2
    (tally_is_exact Json.loads quiet_backend messages w h H)))).
Defined.

(** *** X4 *)

Lemma new_author_witness :
  let message := jq "{'author':'bob'}" in
  let d := [(py "author", PStr (py "bob"))] in
  let h := HStr (py "bob") in
  let w := snd (process_all Json.loads quiet_backend [jq "{'author':'alice'}"]
                            initial_world) in
  Json.loads message = Returned (PDict d) /\
  key_of (author_of d) = Some h /\
  keys (author_counts (snd (process_message Json.loads quiet_backend message w)))
  = match count_of h (author_counts w) with
    | Some _ => keys (author_counts w)
    | None => keys (author_counts w) ++ [author_of d]
    end.
Proof.
  intros message d h w.
  assert (H1 : Json.loads message = Returned (PDict d)) by (vm_compute; reflexivity).
  assert (H2 : key_of (author_of d) = Some h) by (vm_compute; reflexivity).
  exact (conj H1 (conj H2
    (new_author_is_appended Json.loads quiet_backend message d h w H1 H2))).
Defined.

(** *** X5 *)

Lemma only_the_author_witness :
  let m1 := jq "{'author': 1, 'message': 'hello'}" in
  let m2 := jq "{'n': [2, 3], 'author': 1.0}" in
  let one := PFloat (S754_finite false 4503599627370496 (-52)) in
  let d1 := [(py "author", PInt 1); (py "message", PStr (py "hello"))] in
  let d2 := [(py "n", PList [PInt 2; PInt 3]); (py "author", one)] in
  let w := initial_world in
  Json.loads m1 = Returned (PDict d1) /\
  Json.loads m2 = Returned (PDict d2) /\
  key_of (author_of d1) = key_of (author_of d2) /\
  (let a1 := aggregate (snd (process_message Json.loads quiet_backend m1 w)) in
   let a2 := aggregate (snd (process_message Json.loads quiet_backend m2 w)) in
   (forall h, count_of h (fst a1) = count_of h (fst a2)) /\ snd a1 = snd a2).
Proof.
  intros m1 m2 one d1 d2 w.
  assert (H1 : Json.loads m1 = Returned (PDict d1)) by (vm_compute; reflexivity).
  assert (H2 : Json.loads m2 = Returned (PDict d2)) by (vm_compute; reflexivity).
  assert (H3 : key_of (author_of d1) = key_of (author_of d2))
    by (vm_compute; reflexivity).
  exact (conj H1 (conj H2 (conj H3
    (only_the_author_matters Json.loads quiet_backend m1 m2 d1 d2 w H1 H2 H3)))).
Defined.

(** *** X6 *)

Lemma every_message_is_logged_witness :
  let message := jq "[1, 2" in
  let w := initial_world in
  (forall e, Json.loads message = Raised e -> is_Exception e = true) /\
  (let w' := snd (process_message Json.loads failing_backend message w) in
   exists added,
     trace w' = trace w ++ added /\
     match counted_key Json.loads message with
     | Some _ => In (Log (INFO_totals (total_messages w') (author_counts w'))) added
     | None => exists r, added = [Log r] /\ is_error_record r = true
     end).
Proof.
  intros message w.
  assert (H : forall e, Json.loads message = Raised e -> is_Exception e = true)
    by (intros e; apply loads_raises_only_errors).
  exact (conj H
    (every_message_is_logged Json.loads failing_backend message w H)).
Defined.

(** *** X7 *)

Lemma chart_witness :
  let w := snd (process_all Json.loads quiet_backend
                  [jq "{'author':'alice'}"; jq "{'author':'bob'}";
                   jq "{'author':'alice'}"] initial_world) in
  consistent w /\
  total_messages w <> 0 /\
  (forall c w0, quiet_backend c w0 = None) /\
  exists top,
    update_chart quiet_backend w =
      (Normal tt,
       {| author_counts := author_counts w;
          total_messages := total_messages w;
          trace := trace w ++ [Ax_clear;
                               Draw (keys (author_counts w))
                                    (List.map snd (author_counts w)) (top + 2)] |}) /\
    In top (List.map snd (author_counts w)) /\
    Forall (fun c => c <= top) (List.map snd (author_counts w)).
Proof.
  intros w.
  assert (H1 : consistent w) by (vm_compute; reflexivity).
  assert (H2 : total_messages w <> 0) by (vm_compute; discriminate).
  assert (H3 : forall c w0, quiet_backend c w0 = None) by reflexivity.
  exact (conj H1 (conj H2 (conj H3
    (chart_shows_the_counts quiet_backend w H1 H2 H3)))).
Defined.

(** *** X9 *)

Lemma missing_file_witness :
  let events := [Appended (line "{'author':'alice'}")] in
  let w := initial_world in
  file_exists no_file = false /\
  main Json.loads quiet_backend no_file events w =
  (Raise (SystemExit 1),
   {| author_counts := author_counts w;
      total_messages := total_messages w;
      trace := trace w ++ [Log INFO_start; Log ERROR_missing_file] |}).
Proof.
  intros events w.
  exact (conj eq_refl
    (missing_file_stops_at_once Json.loads quiet_backend no_file events w eq_refl)).
Defined.

(** *** X10 *)

Lemma open_error_witness :
  let s := {| file_exists := true; open_result := Raised OSError |} in
  let events := [Appended (line "{'author':'alice'}")] in
  let w := initial_world in
  file_exists s = true /\
  open_result s = Raised OSError /\
  is_Exception OSError = true /\
  main Json.loads quiet_backend s events w =
  (Normal tt,
   {| author_counts := author_counts w;
      total_messages := total_messages w;
      trace := trace w ++ [Log INFO_start; Log (ERROR_unexpected OSError);
                           Ioff_show; Log INFO_closed] |}).
Proof.
  intros s events w.
  exact (conj eq_refl (conj eq_refl (conj eq_refl
    (open_error_ends_the_run Json.loads quiet_backend s events OSError w
       eq_refl eq_refl eq_refl)))).
Defined.


(** *** X12 *)

Lemma main_keeps_polling_witness :
  loads_raises_errors Json.loads /\
  backend_raises_errors failing_backend /\
  fst (main Json.loads failing_backend (file_with (line "{'author':'old'}"))
            (List.map Appended [line "{'author':'alice'}"; []; line "oops"])
            initial_world)
  = Blocked.
Proof.
  exact (conj loads_raises_only_errors (conj failing_backend_raises_errors
    (main_keeps_polling Json.loads failing_backend (line "{'author':'old'}")
       [line "{'author':'alice'}"; []; line "oops"] initial_world
       loads_raises_only_errors failing_backend_raises_errors))).
Defined.

(** *** X14 *)

Lemma lines_witness :
  let lines := [line "{'author':'alice'}"; line "not json"; line "{'author':'bob'}"] in
  let f := {| content := List.concat lines; pos := 0 |} in
  let w := initial_world in
  in_bounds f /\
  unread f = List.concat lines /\
  Forall complete_line lines /\
  Forall (fun l => truthy (strip l) = true) lines /\
  @while_true text_file unit (loop_body Json.loads quiet_backend)
              (List.repeat (Appended []) (List.length lines)) f w
  = bind (process_all Json.loads quiet_backend lines) (fun _ => blocked) w.
Proof.
  intros lines f w.
  assert (H1 : in_bounds f) by (unfold in_bounds; simpl; lia).
  assert (H2 : unread f = List.concat lines) by reflexivity.
  assert (H3 : Forall complete_line lines).
  { repeat constructor.
    - exists (jq "{'author':'alice'}"). split; [reflexivity|].
      apply no_newline_check. reflexivity.
    - exists (jq "not json"). split; [reflexivity|].
      apply no_newline_check. reflexivity.
    - exists (jq "{'author':'bob'}"). split; [reflexivity|].
      apply no_newline_check. reflexivity. }
  assert (H4 : Forall (fun l => truthy (strip l) = true) lines)
    by (repeat constructor).
  exact (conj H1 (conj H2 (conj H3 (conj H4
    (lines_are_processed_once_in_order Json.loads quiet_backend lines f w
       H1 H2 H3 H4))))).
Defined.

(** *** X15 *)

Lemma cursor_witness :
  let file := seek_end {| content := line "{'author':'alice'}"; pos := 0 |} in
  let s := line "{'author':'bob'}" ++ jq "{'auth" in
  let file' := {| content := line "{'author':'alice'}" ++ s; pos := 36 |} in
  let w := initial_world in
  let w' := snd (loop_body Json.loads quiet_backend (Appended s) file w) in
  in_bounds file /\
  loop_body Json.loads quiet_backend (Appended s) file w = (Normal file', w') /\
  content file' = content file ++ s /\
  (pos file <= pos file')%nat /\
  in_bounds file'.
Proof.
  intros file s file' w w'.
  assert (H1 : in_bounds file) by (unfold in_bounds; simpl; lia).
  assert (H2 : loop_body Json.loads quiet_backend (Appended s) file w
               = (Normal file', w')) by (vm_compute; reflexivity).
  exact (conj H1 (conj H2
    (cursor_only_moves_forward Json.loads quiet_backend s file file' w w' H1 H2))).
Defined.
